(** * Metric resolution and evaluation engine of svr-info (pmu2metrics)

    A shallow embedding of [loadMetricBestGroups], [getExpressionVariables],
    [getEvaluatorFunctions], [evaluateExpression] and [processEvents], and
    the properties of the engine's specification established on it; then
    [getReports] and [getBinPath] of the orchestrator, and further
    properties of both.

    Conventions.
    - A Go [float64] is an IEEE-754 binary64 value, here [spec_float] with
      precision 53 and maximal exponent 1024.
    - A Go map is a reference: [MetricDefinition.Variables] is a location in
      a store of maps, so that a [MetricDefinition] passed by value still
      shares its variable map with the caller's definition, while its other
      fields are copied.
    - Go map iteration and [Set.ToSlice] have no specified order; the
      embedding enumerates in the canonical order of [gmap]/[gset], and
      [assignAll_order], [checkVariables_order] and
      [setVariableValues_order] show what does not depend on it.
    - The [for] loop of the resolver has no bound; it is embedded with a
      number of iterations allowed, and [resolveLoop_enough] shows the
      result not to depend on it once it exceeds the number of names.
    - The types [MetricDefinition], [EventFrame], [EventGroup] and
      [Metadata] are declared outside the files at hand; their fields are
      the ones the functions use.
    - Calls of [log.Print]/[log.Printf] are not part of the embedding of
      the engine; the orchestrator's are among the events of a call. *)

From Stdlib Require Import ZArith Floats.SpecFloat.
From stdpp Require Import gmap strings list fin_maps fin_sets.

#[local] Set Warnings "-clear-no-such-hyp".

Local Open Scope Z_scope.
Local Open Scope string_scope.

(** ** float64 *)

Module F64.
Definition prec : Z := 53.
Definition emax : Z := 1024.

Definition zero : spec_float := S754_zero false.
Definition nan : spec_float := S754_nan.
Definition pinf : spec_float := S754_infinity false.

Definition sub (x y : spec_float) : spec_float := SFsub prec emax x y.
Definition div (x y : spec_float) : spec_float := SFdiv prec emax x y.
Definition mul (x y : spec_float) : spec_float := SFmul prec emax x y.

(** The conversion [float64(t)] of a Go [int]. *)
Definition of_int (t : Z) : spec_float := binary_normalize prec emax t 0 false.

Definition leb (x y : spec_float) : bool := SFleb x y.

Definition is_nan (x : spec_float) : bool :=
  match x with S754_nan => true | _ => false end.

Definition is_inf (x : spec_float) : bool :=
  match x with S754_infinity _ => true | _ => false end.

(** Go's predeclared [max] and [min] at type float64 (language
    specification, "Min and max"): a NaN argument gives NaN, and of the
    two zeros [max] picks the positive and [min] the negative one. *)
Definition max (x y : spec_float) : spec_float :=
  match SFcompare x y with
  | None => nan
  | Some Lt => y
  | Some Gt => x
  | Some Eq =>
      match x, y with
      | S754_zero true, S754_zero false => y
      | _, _ => x
      end
  end.

Definition min (x y : spec_float) : spec_float :=
  match SFcompare x y with
  | None => nan
  | Some Lt => x
  | Some Gt => y
  | Some Eq =>
      match x, y with
      | S754_zero false, S754_zero true => y
      | _, _ => x
      end
  end.
End F64.

Abbreviation float64 := spec_float.

(** ** Errors, dynamic values and outcomes *)

(** The [error] values the engine builds with [fmt.Errorf], by the place
    that builds them, and the ones it receives from its collaborators. *)
Inductive error : Type :=
| ErrVariablesNotFound (names : list string) (metric : string)
| ErrPreviouslyFailed (variableName : string)
| ErrGroupAssignment (cause : error)
| ErrValueFailed (variableName : string)
| ErrEventGroups (cause : error)
| ErrRuntime (msg : string)
| ErrExternal (msg : string).

(** A Go [interface{}] value, as far as the engine inspects it. *)
Inductive Value : Type :=
| VNil
| VInt (t : Z)
| VFloat (t : float64)
| VBool (b : bool)
| VString (s : string).

(** The value a panic carries: an [error] (all run-time panics do) or
    anything else. *)
Inductive PanicValue : Type :=
| PanicError (e : error)
| PanicOther (v : Value).

Inductive outcome (A : Type) : Type :=
| Returns (a : A)
| Panics (p : PanicValue).
Arguments Returns {A} a.
Arguments Panics {A} p.

Definition indexOutOfRange : PanicValue :=
  PanicError (ErrRuntime "index out of range").
Definition interfaceConversion : PanicValue :=
  PanicError (ErrRuntime "interface conversion").

(** ** Data model *)

Record EventGroup : Type := { EventValues : gmap string float64 }.

Record EventFrame : Type := {
  EventGroups : list EventGroup;
  Timestamp : float64
}.

Record Metadata : Type := { ThreadsPerCore : Z }.

Record Metric : Type := { Metric_Name : string; Metric_Value : float64 }.

Definition loc := positive.

(** [EvaluatorExpression] is [None] for Go's nil pointer. *)
Record MetricDefinition (Expr : Type) : Type := {
  Name : string;
  Expression : string;
  Variables : loc;
  EvaluatorExpression : option Expr
}.
Arguments Name {Expr} m.
Arguments Expression {Expr} m.
Arguments Variables {Expr} m.
Arguments EvaluatorExpression {Expr} m.
Arguments Build_MetricDefinition {Expr} _ _ _ _.

(** The mutable state the engine works on: the store of variable maps
    (variable name to group index, -1 for "not yet set", -2 for "tried and
    failed"), and the expressions handed to the evaluator's compiler so
    far, latest first. *)
Record World : Type := {
  Maps : gmap loc (gmap string Z);
  Compiled : list string
}.

Definition variablesOf (w : World) (l : loc) : gmap string Z :=
  default ∅ (Maps w !! l).

Definition setVariables (w : World) (l : loc) (m : gmap string Z) : World :=
  {| Maps := <[l := m]> (Maps w); Compiled := Compiled w |}.

Definition logCompile (w : World) (expression : string) : World :=
  {| Maps := Maps w; Compiled := expression :: Compiled w |}.

(** ** Variable-to-group resolver: [loadMetricBestGroups] *)

Definition ToSlice (s : gset string) : list string := elements s.

(** [for _, name := range names { variables[name] = value }] *)
Definition assignAll (names : list string) (value : Z) (variables : gmap string Z)
  : gmap string Z :=
  foldl (fun m name => <[name := value]> m) variables names.

Definition groupEventNames (group : EventGroup) : gset string :=
  dom (EventValues group).

(** The scan of the frame's groups (the inner [for ... range
    frame.EventGroups]), from group number [groupIdx] on; the state is
    [bestGroupIdx], [bestMatches] and [matchedNames]. *)
Fixpoint scanGroups (remaining : gset string) (groups : list EventGroup)
    (groupIdx : nat) (bestGroupIdx : Z) (bestMatches : nat)
    (matchedNames : gset string) : Z * nat * gset string :=
  match groups with
  | [] => (bestGroupIdx, bestMatches, matchedNames)
  | group :: groups' =>
      let intersection := remaining ∩ groupEventNames group in
      if decide (bestMatches < size intersection)%nat then
        if decide (size intersection = size remaining) then
          (Z.of_nat groupIdx, size intersection, intersection)
        else
          scanGroups remaining groups' (S groupIdx)
            (Z.of_nat groupIdx) (size intersection) intersection
      else
        scanGroups remaining groups' (S groupIdx)
          bestGroupIdx bestMatches matchedNames
  end.

Definition bestGroup (remaining : gset string) (groups : list EventGroup)
  : Z * nat * gset string :=
  scanGroups remaining groups 0 (-1) 0%nat ∅.

(** The outer [for { ... }] loop. It has no bound in the source; [fuel]
    counts the iterations allowed, [None] means they did not suffice. The
    result is the variable map, the error and the number of passes that
    assigned a group. *)
Fixpoint resolveLoop (fuel : nat) (metricName : string) (groups : list EventGroup)
    (remaining : gset string) (variables : gmap string Z)
  : option (gmap string Z * option error * nat) :=
  match fuel with
  | O => None
  | S fuel' =>
      if decide (size remaining = 0%nat) then Some (variables, None, 0%nat)
      else
        let '(bestGroupIdx, _, matchedNames) := bestGroup remaining groups in
        if decide (bestGroupIdx = -1) then
          Some (assignAll (ToSlice remaining) (-2) variables,
                Some (ErrVariablesNotFound (ToSlice remaining) metricName),
                0%nat)
        else
          match resolveLoop fuel' metricName groups (remaining ∖ matchedNames)
                  (assignAll (ToSlice matchedNames) bestGroupIdx variables) with
          | Some (variables', err, passes) => Some (variables', err, S passes)
          | None => None
          end
  end.

(** [loadMetricBestGroups(metric *MetricDefinition, frame EventFrame)]: the
    loop is run with one more iteration than there are variable names,
    which [resolveLoop_fuel] shows to be enough. *)
Definition loadMetricBestGroups {Expr} (metric : MetricDefinition Expr)
    (frame : EventFrame) (w : World) : World * option error :=
  let variables := variablesOf w (Variables metric) in
  let allVariableNames := dom variables in
  match resolveLoop (S (size allVariableNames)) (Name metric)
          (EventGroups frame) allVariableNames variables with
  | Some (variables', err, _) => (setVariables w (Variables metric) variables', err)
  | None => (w, None)
  end.

(** ** Value normalizer: [getExpressionVariables] *)

(** A computation of the engine: it transforms the world and returns or
    panics. *)
Definition Go (A : Type) : Type := World -> World * outcome A.

(** The first loop over [metric.Variables]: whether groups must be loaded,
    or the error of a variable that failed before. *)
Fixpoint checkVariables (entries : list (string * Z)) (loadGroups : bool)
  : bool + error :=
  match entries with
  | [] => inl loadGroups
  | (variableName, groupIdx) :: entries' =>
      let loadGroups := if decide (groupIdx = -1) then true else loadGroups in
      if decide (groupIdx = -2) then inr (ErrPreviouslyFailed variableName)
      else checkVariables entries' loadGroups
  end.

(** [frame.EventGroups[idx]], which panics out of range. *)
Definition groupAt (frame : EventFrame) (idx : Z) : option EventGroup :=
  if decide (0 <= idx) then EventGroups frame !! Z.to_nat idx else None.

(** [group.EventValues[variableName]]: a missing key reads as 0. *)
Definition eventValue (group : EventGroup) (variableName : string) : float64 :=
  default F64.zero (EventValues group !! variableName).

Definition c6residency : string := "cstate_core/c6-residency/".

(** The rate of line 86, the adjustment of lines 89 to 91, and the value
    bound to the variable. *)
Definition rate (group : EventGroup) (variableName : string)
    (timestamp previousTimestamp : float64) : float64 :=
  F64.div (eventValue group variableName) (F64.sub timestamp previousTimestamp).

Definition adjusted (metadata : Metadata) (variableName : string) (value : float64)
  : float64 :=
  if decide (1 < ThreadsPerCore metadata ∧ variableName = c6residency)
  then F64.mul value (F64.of_int (ThreadsPerCore metadata))
  else value.

Definition normalized (group : EventGroup) (variableName : string)
    (timestamp previousTimestamp : float64) (metadata : Metadata) : float64 :=
  adjusted metadata variableName
    (rate group variableName timestamp previousTimestamp).

(** The second loop over [metric.Variables]. *)
Fixpoint setVariableValues (entries : list (string * Z)) (frame : EventFrame)
    (previousTimestamp : float64) (metadata : Metadata)
    (variables : gmap string Value) (err : option error)
  : outcome (gmap string Value * option error) :=
  match entries with
  | [] => Returns (variables, err)
  | (variableName, groupIdx) :: entries' =>
      let err := if decide (groupIdx = -2)
                 then Some (ErrValueFailed variableName) else err in
      match groupAt frame groupIdx with
      | None => Panics indexOutOfRange
      | Some group =>
          let value := normalized group variableName (Timestamp frame)
                         previousTimestamp metadata in
          setVariableValues entries' frame previousTimestamp metadata
            (<[variableName := VFloat value]> variables) err
      end
  end.

Definition getExpressionVariables {Expr} (metric : MetricDefinition Expr)
    (frame : EventFrame) (previousTimestamp : float64) (metadata : Metadata)
  : Go (gmap string Value * option error) := fun w =>
  match checkVariables (map_to_list (variablesOf w (Variables metric))) false with
  | inr err => (w, Returns (∅, Some err))
  | inl loadGroups =>
      let '(w1, err) := if loadGroups then loadMetricBestGroups metric frame w
                        else (w, None) in
      match err with
      | Some e => (w1, Returns (∅, Some (ErrGroupAssignment e)))
      | None =>
          (w1, setVariableValues (map_to_list (variablesOf w1 (Variables metric)))
                 frame previousTimestamp metadata ∅ None)
      end
  end.

(** ** Functions of metric expressions: [getEvaluatorFunctions] *)

Definition ExpressionFunction : Type := list Value -> outcome (Value * option error).

(** [switch t := arg.(type) { case int: v = float64(t); case float64: v = t }]
    on a variable declared [var v float64]. *)
Definition asFloat64 (arg : Value) : float64 :=
  match arg with
  | VInt t => F64.of_int t
  | VFloat t => t
  | _ => F64.zero
  end.

Definition binaryFunction (op : float64 -> float64 -> float64) : ExpressionFunction :=
  fun args =>
    match args !! 0%nat with
    | None => Panics indexOutOfRange
    | Some arg0 =>
        let leftVal := asFloat64 arg0 in
        match args !! 1%nat with
        | None => Panics indexOutOfRange
        | Some arg1 =>
            let rightVal := asFloat64 arg1 in
            Returns (VFloat (op leftVal rightVal), None)
        end
    end.

Definition getEvaluatorFunctions : gmap string ExpressionFunction :=
  <["min" := binaryFunction F64.min]> (<["max" := binaryFunction F64.max]> ∅).

(** ** Expression evaluator and frame pipeline *)

(** The handler deferred by [evaluateExpression]:
    [if errx := recover(); errx != nil { err = errx.(error) }]. When it runs
    after a panic, [result] still has its zero value. *)
Definition recoverError (body : outcome (Value * option error))
  : outcome (Value * option error) :=
  match body with
  | Returns r => Returns r
  | Panics (PanicError e) => Returns (VNil, Some e)
  | Panics (PanicOther _) => Panics interfaceConversion
  end.

(** The expression library (govaluate) and the acquisition of frames
    ([getEventFrame]) are collaborators of the engine: it is written
    against their interface. A call returns its Go results or panics. *)
Class Collaborators (Expr : Type) : Type := {
  NewEvaluableExpressionWithFunctions :
    string → gmap string ExpressionFunction → outcome (option Expr * option error);
  Evaluate : Expr → gmap string Value → outcome (Value * option error);
  getEventFrame : list string → EventFrame * option error
}.

Section Engine.
Context {Expr : Type} `{!Collaborators Expr}.

(** [metric.EvaluatorExpression.Evaluate(variables)] and the logging of
    its error; a nil expression is dereferenced. *)
Definition callEvaluate (metric : MetricDefinition Expr)
    (variables : gmap string Value) : outcome (Value * option error) :=
  match EvaluatorExpression metric with
  | None => Panics (PanicError (ErrRuntime "nil pointer dereference"))
  | Some expression => Evaluate expression variables
  end.

(** [metric.EvaluatorExpression = evExpression], on the callee's copy. *)
Definition withEvaluatorExpression (metric : MetricDefinition Expr)
    (evExpression : option Expr) : MetricDefinition Expr :=
  {| Name := Name metric; Expression := Expression metric;
     Variables := Variables metric; EvaluatorExpression := evExpression |}.

Definition evaluateExpression (metric : MetricDefinition Expr)
    (variables : gmap string Value) (functions : gmap string ExpressionFunction)
  : Go (Value * option error) := fun w =>
  match EvaluatorExpression metric with
  | None =>
      let w1 := logCompile w (Expression metric) in
      match NewEvaluableExpressionWithFunctions (Expression metric) functions with
      | Panics p => (w1, recoverError (Panics p))
      | Returns (_, Some err) => (w1, recoverError (Returns (VNil, Some err)))
      | Returns (evExpression, None) =>
          let metric := withEvaluatorExpression metric evExpression in
          (w1, recoverError (callEvaluate metric variables))
      end
  | Some _ => (w, recoverError (callEvaluate metric variables))
  end.

(** The loop of [processEvents] over the metric definitions; [metrics]
    and [err] are the function's named results. *)
Fixpoint processMetrics (metricDefinitions : list (MetricDefinition Expr))
    (eventFrame : EventFrame) (functions : gmap string ExpressionFunction)
    (previousTimestamp : float64) (metadata : Metadata)
    (metrics : list Metric) (err : option error)
  : Go (list Metric * option error) := fun w =>
  match metricDefinitions with
  | [] => (w, Returns (metrics, err))
  | metricDef :: rest =>
      match getExpressionVariables metricDef eventFrame previousTimestamp metadata w with
      | (w1, Panics p) => (w1, Panics p)
      | (w1, Returns (_, Some _)) =>
          processMetrics rest eventFrame functions previousTimestamp metadata
            metrics None w1
      | (w1, Returns (variables, None)) =>
          match evaluateExpression metricDef variables functions w1 with
          | (w2, Panics p) => (w2, Panics p)
          | (w2, Returns (_, Some _)) =>
              processMetrics rest eventFrame functions previousTimestamp metadata
                metrics None w2
          | (w2, Returns (result, None)) =>
              match result with
              | VFloat value =>
                  processMetrics rest eventFrame functions previousTimestamp
                    metadata
                    (metrics ++ [{| Metric_Name := Name metricDef;
                                    Metric_Value := value |}])
                    None w2
              | _ => (w2, Panics interfaceConversion)
              end
          end
      end
  end.

Definition processEvents (perfEvents : list string)
    (metricDefinitions : list (MetricDefinition Expr))
    (functions : gmap string ExpressionFunction)
    (previousTimestamp : float64) (metadata : Metadata)
  : Go (list Metric * float64 * option error) := fun w =>
  let '(eventFrame, err) := getEventFrame perfEvents in
  let err := match err with
             | Some e => Some (ErrEventGroups e)
             | None => None
             end in
  let timeStamp := Timestamp eventFrame in
  match processMetrics metricDefinitions eventFrame functions
          previousTimestamp metadata [] err w with
  | (w', Returns (metrics, err)) => (w', Returns (metrics, timeStamp, err))
  | (w', Panics p) => (w', Panics p)
  end.
End Engine.

(** ** Resolution states *)

Definition Unresolved : Z := -1.
Definition Failed : Z := -2.
Definition ResolvedToGroup (state : Z) : Prop := 0 <= state.

Definition hasFailed (variables : gmap string Z) : Prop :=
  ∃ k, variables !! k = Some Failed.

Definition hasUnresolved (variables : gmap string Z) : Prop :=
  ∃ k, variables !! k = Some Unresolved.

Definition allResolved (variables : gmap string Z) : Prop :=
  map_Forall (λ _ state, ResolvedToGroup state) variables.

Definition allUnresolved (variables : gmap string Z) : Prop :=
  map_Forall (λ _ state, state = Unresolved) variables.

Definition noneUnresolved (variables : gmap string Z) : Prop :=
  map_Forall (λ _ state, state ≠ Unresolved) variables.

(** A variable map as the engine leaves it: resolution has not been tried,
    or it has been tried for every variable. *)
Definition settled (variables : gmap string Z) : Prop :=
  allUnresolved variables ∨ noneUnresolved variables.

(** ** The resolver's algorithm, as its specification words it *)

(** The variables of [remaining] that a group supplies. *)
Definition matching (remaining : gset string) (group : EventGroup) : gset string :=
  remaining ∩ groupEventNames group.

(** Group number [i] wins a scan for [remaining]: its intersection is not
    empty, no group has a larger one, and every earlier group has a
    strictly smaller one. *)
Definition winner (remaining : gset string) (groups : list EventGroup)
    (i : nat) (group : EventGroup) : Prop :=
  groups !! i = Some group ∧
  (0 < size (matching remaining group))%nat ∧
  (∀ j g, groups !! j = Some g →
          (size (matching remaining g) ≤ size (matching remaining group))%nat) ∧
  (∀ j g, groups !! j = Some g → (j < i)%nat →
          (size (matching remaining g) < size (matching remaining group))%nat).

Definition noMatch (remaining : gset string) (groups : list EventGroup) : Prop :=
  ∀ j g, groups !! j = Some g → size (matching remaining g) = 0%nat.

(** What a scan of [groups] leaves in [bestGroupIdx], [bestMatches] and
    [matchedNames]. *)
Definition scanned (remaining : gset string) (groups : list EventGroup)
    (state : Z * nat * gset string) : Prop :=
  (state = (-1, 0%nat, ∅) ∧ noMatch remaining groups) ∨
  (∃ i g, winner remaining groups i g ∧
          state = (Z.of_nat i, size (matching remaining g), matching remaining g)).

(** Greedy maximum coverage: nothing remains; or no group matches and all
    that remains fails; or the winning group takes its matches and the
    rest is resolved in the same way. *)
Inductive Greedy (metricName : string) (groups : list EventGroup)
  : gset string → gmap string Z → gmap string Z * option error → Prop :=
| Greedy_done variables :
    Greedy metricName groups ∅ variables (variables, None)
| Greedy_failed remaining variables :
    remaining ≠ ∅ →
    noMatch remaining groups →
    Greedy metricName groups remaining variables
      (gset_to_gmap Failed remaining ∪ variables,
       Some (ErrVariablesNotFound (ToSlice remaining) metricName))
| Greedy_assign remaining variables i group r :
    remaining ≠ ∅ →
    winner remaining groups i group →
    Greedy metricName groups (remaining ∖ matching remaining group)
      (gset_to_gmap (Z.of_nat i) (matching remaining group) ∪ variables) r →
    Greedy metricName groups remaining variables r.

(** ** Runs of the pipeline *)

(** The moves of one variable's state between two points of a run. *)
Definition transition (before after : option Z) : Prop :=
  after = before ∨
  (before = Some Unresolved ∧
   (after = Some Failed ∨ ∃ i, after = Some i ∧ ResolvedToGroup i)).

(** What a call of [getExpressionVariables] reports, its values left out. *)
Definition status {A B} (o : outcome (A * option B)) : outcome (option B) :=
  match o with
  | Returns (_, err) => Returns err
  | Panics p => Panics p
  end.

(** What a map looks like after the resolver has run on [remaining]. *)
Definition resolvedIn (groups : list EventGroup) (k : string) (state : option Z) : Prop :=
  ∃ i g, state = Some (Z.of_nat i) ∧ groups !! i = Some g ∧ k ∈ groupEventNames g.

(** One variable map between two points of a run: untouched, or, when no
    variable had failed and some was unresolved, every variable tried. *)
Definition advance (m m' : gmap string Z) : Prop :=
  m' = m ∨
  (¬ hasFailed m ∧ hasUnresolved m ∧
   ∀ k, match m !! k with
        | None => m' !! k = None
        | Some _ => m' !! k = Some Failed ∨ ∃ i, m' !! k = Some (Z.of_nat i)
        end).

Definition advances (w w' : World) : Prop :=
  ∀ l, advance (variablesOf w l) (variablesOf w' l).

Section Runs.
Context {Expr : Type} `{!Collaborators Expr}.
Variable metricDefinitions : list (MetricDefinition Expr).

(** [later w w']: some sequence of [processEvents] calls on the same
    metric definitions, with any samples, function tables, previous
    timestamps and metadata, leads from world [w] to world [w']. *)
Inductive later : World → World → Prop :=
| later_now w : later w w
| later_call w w1 w2 perfEvents functions previousTimestamp metadata o :
    processEvents perfEvents metricDefinitions functions previousTimestamp
      metadata w = (w1, o) →
    later w1 w2 →
    later w w2.

(** The faults of the evaluator on one metric that carry an error: an
    error returned by the compiler or by the evaluation, or a panic of
    either with an error value, as the run-time panics of Go are. *)
Inductive Fault (metric : MetricDefinition Expr) (variables : gmap string Value)
    (functions : gmap string ExpressionFunction) : error → Prop :=
| Fault_compile_error evExpression e :
    EvaluatorExpression metric = None →
    NewEvaluableExpressionWithFunctions (Expression metric) functions
      = Returns (evExpression, Some e) →
    Fault metric variables functions e
| Fault_compile_panic e :
    EvaluatorExpression metric = None →
    NewEvaluableExpressionWithFunctions (Expression metric) functions
      = Panics (PanicError e) →
    Fault metric variables functions e
| Fault_evaluate_error expression result e :
    (EvaluatorExpression metric = Some expression ∨
     EvaluatorExpression metric = None ∧
     NewEvaluableExpressionWithFunctions (Expression metric) functions
       = Returns (Some expression, None)) →
    Evaluate expression variables = Returns (result, Some e) →
    Fault metric variables functions e
| Fault_evaluate_panic expression e :
    (EvaluatorExpression metric = Some expression ∨
     EvaluatorExpression metric = None ∧
     NewEvaluableExpressionWithFunctions (Expression metric) functions
       = Returns (Some expression, None)) →
    Evaluate expression variables = Panics (PanicError e) →
    Fault metric variables functions e.
End Runs.

(** The arguments the functions of metric expressions are meant for:
    integers and real numbers. *)
Definition numeric (v : Value) : Prop :=
  match v with
  | VInt _ => True
  | VFloat t => F64.is_nan t = false
  | _ => False
  end.

(** ** A small evaluator and sample data, for the examples *)

Module Sample.
(** A compiled expression is its text with the function table it was
    compiled with. *)
Definition Expr : Type := string * gmap string ExpressionFunction.

(** The expressions it understands are the literal 1, a call of [max]
    with one argument, and a parameter, written as a plain name or, as
    the evaluator has it for names with other characters, in square
    brackets. *)
Definition nameChar (c : Ascii.ascii) : bool :=
  let n := Ascii.nat_of_ascii c in
  ((48 <=? n) && (n <=? 57) || (65 <=? n) && (n <=? 90)
   || (97 <=? n) && (n <=? 122) || (n =? 95))%nat.

Fixpoint plain (text : string) : bool :=
  match text with
  | "" => true
  | String c rest => nameChar c && plain rest
  end.

(** The name that ends with the closing bracket, which ends the text. *)
Fixpoint bracketed (text : string) : option string :=
  match text with
  | "" => None
  | String c rest =>
      if decide (String c "" = "]")
      then if decide (rest = "") then Some "" else None
      else String c <$> bracketed rest
  end.

Definition parameter (text : string) : option string :=
  match text with
  | "" => None
  | String c rest =>
      if decide (String c "" = "[") then bracketed rest
      else if plain text then Some text else None
  end.

Definition compile (expression : string) (functions : gmap string ExpressionFunction)
  : outcome (option Expr * option error) :=
  if decide (expression = "")
  then Returns (None, Some (ErrExternal "Unexpected end of expression"))
  else if decide (expression = "1" ∨ expression = "max(1)")
  then Returns (Some (expression, functions), None)
  else match parameter expression with
       | Some _ => Returns (Some (expression, functions), None)
       | None => Returns (None, Some (ErrExternal "Invalid token"))
       end.

Definition evaluate (expression : Expr) (variables : gmap string Value)
  : outcome (Value * option error) :=
  let '(text, functions) := expression in
  if decide (text = "1") then Returns (VFloat (F64.of_int 1), None)
  else if decide (text = "max(1)") then
    match functions !! "max" with
    | Some f => f [VFloat (F64.of_int 1)]
    | None => Returns (VNil, Some (ErrExternal "Undefined function max"))
    end
  else
    match parameter text with
    | Some name =>
        match variables !! name with
        | Some v => Returns (v, None)
        | None => Returns (VNil, Some (ErrExternal "No parameter found"))
        end
    | None => Returns (VNil, Some (ErrExternal "Invalid token"))
    end.

Definition group (values : list (string * Z)) : EventGroup :=
  {| EventValues := list_to_map (prod_map id F64.of_int <$> values) |}.

Definition frame1 : EventFrame :=
  {| EventGroups := [group [("instr", 2000000000); ("cycles", 1000000000)];
                     group [(c6residency, 500000000)]];
     Timestamp := F64.of_int 1 |}.

(** The second sample lacks the counter "instr". *)
Definition frame2 : EventFrame :=
  {| EventGroups := [group [("cycles", 1000000000)];
                     group [(c6residency, 500000000)]];
     Timestamp := F64.of_int 2 |}.

Definition noFrame : EventFrame := {| EventGroups := []; Timestamp := F64.zero |}.

Definition acquire (perfEvents : list string) : EventFrame * option error :=
  match perfEvents with
  | ["sample 1"] => (frame1, None)
  | ["sample 2"] => (frame2, None)
  | _ => (noFrame, Some (ErrExternal "unable to parse the events"))
  end.

#[global] Instance collaborators : Collaborators Expr :=
  {| NewEvaluableExpressionWithFunctions := compile;
     Evaluate := evaluate;
     getEventFrame := acquire |}.

Definition instr : MetricDefinition Expr :=
  {| Name := "instr"; Expression := "instr"; Variables := 1%positive;
     EvaluatorExpression := None |}.
Definition residency : MetricDefinition Expr :=
  {| Name := "residency"; Expression := "[" ++ c6residency ++ "]";
     Variables := 2%positive;
     EvaluatorExpression := None |}.
Definition bad : MetricDefinition Expr :=
  {| Name := "bad"; Expression := "missing"; Variables := 3%positive;
     EvaluatorExpression := None |}.
Definition one : MetricDefinition Expr :=
  {| Name := "one"; Expression := "1"; Variables := 4%positive;
     EvaluatorExpression := None |}.
Definition faulty : MetricDefinition Expr :=
  {| Name := "faulty"; Expression := "max(1)"; Variables := 5%positive;
     EvaluatorExpression := None |}.

Definition start : World :=
  {| Maps := list_to_map
       [(1%positive, list_to_map [("instr", -1); ("cycles", -1)]);
        (2%positive, list_to_map [(c6residency, -1)]);
        (3%positive, list_to_map [("missing", -1)])];
     Compiled := [] |}.

Definition uniprocessor : Metadata := {| ThreadsPerCore := 1 |}.
Definition hyperthreaded : Metadata := {| ThreadsPerCore := 2 |}.

(** The world after the variables of "instr" have been resolved on the
    first sample. *)
Definition resolved : World :=
  (getExpressionVariables instr frame1 (F64.of_int 0) uniprocessor start).1.

(** Two calls of the pipeline on the same definitions. *)
Definition definitions : list (MetricDefinition Expr) := [instr; bad].

Definition afterFirst : World :=
  (processEvents ["sample 1"] definitions getEvaluatorFunctions
     (F64.of_int 0) uniprocessor start).1.

Definition afterSecond : World :=
  (processEvents ["sample 2"] definitions getEvaluatorFunctions
     (F64.of_int 1) uniprocessor afterFirst).1.
End Sample.

(** ** Further notions for the properties of the engine *)

(** Some group of the frame has a counter of this name. *)
Definition supplied (groups : list EventGroup) (k : string) : Prop :=
  ∃ i g, groups !! i = Some g ∧ k ∈ groupEventNames g.

Section Body.
Context {Expr : Type} `{!Collaborators Expr}.

(** What [evaluateExpression] does before its deferred handler runs. *)
Definition evaluateBody (metric : MetricDefinition Expr)
    (variables : gmap string Value) (functions : gmap string ExpressionFunction)
  : outcome (Value * option error) :=
  match EvaluatorExpression metric with
  | None =>
      match NewEvaluableExpressionWithFunctions (Expression metric) functions with
      | Panics p => Panics p
      | Returns (_, Some err) => Returns (VNil, Some err)
      | Returns (evExpression, None) =>
          callEvaluate (withEvaluatorExpression metric evExpression) variables
      end
  | Some _ => callEvaluate metric variables
  end.

(** The expressions of the definitions that carry no compiled expression. *)
Definition uncompiled (metricDefinitions : list (MetricDefinition Expr)) : list string :=
  Expression <$> filter (λ d, EvaluatorExpression d = None) metricDefinitions.
End Body.

(** Further data for the examples. *)
Module Fixture.
(** The variables of "instr" marked failed. *)
Definition failed : World :=
  setVariables Sample.start 1%positive {[ "instr" := -2; "cycles" := -2 ]}.

(** Function tables whose [max] panics with a value that is no error, and
    returns a boolean. *)
Definition panicking : gmap string ExpressionFunction :=
  {[ "max" := λ _, Panics (PanicOther (VString "unsupported")) ]}.
Definition comparing : gmap string ExpressionFunction :=
  {[ "max" := λ _, Returns (VBool true, None) ]}.

(** A definition of which the samples supply one variable and not the
    other, and a world that holds its variables, unresolved. *)
Definition partly : MetricDefinition Sample.Expr :=
  {| Name := "partly"; Expression := "instr"; Variables := 6%positive;
     EvaluatorExpression := None |}.
Definition begin : World :=
  setVariables Sample.start 6%positive {[ "instr" := -1; "missing" := -1 ]}.
End Fixture.

(** ** The orchestrator: [getReports] *)

Module Orchestrator.

(** The errors [getReports] returns: the one it builds with [fmt.Errorf],
    and the ones it passes on from the host. *)
Inductive failure : Type :=
| ErrNoDataCollected
| ErrHost (msg : string).

(** A [Collection], as far as [getReports] reads it; [targetName] is
    [collection.target.GetName()]. *)
Record Collection : Type := {
  targetName : string;
  ok : bool;
  outputFilePath : string
}.

(** What a call does to its surroundings, in the order it does it. *)
Inductive Event : Type :=
| StatusUpdate (name status : string)
| LogPrintf (line : string)
| RunCommand (args : list string).

(** The host: [os.Executable], [filepath.Dir], [filepath.Join], and
    [target.RunLocalCommand] on the arguments of the command, of whose
    results the code keeps the standard output and the error. *)
Class Host : Type := {
  os_Executable : string * option failure;
  filepath_Dir : string → string;
  filepath_Join : list string → string;
  RunLocalCommand : list string → string * option failure
}.

Definition newline : Ascii.ascii := Ascii.ascii_of_nat 10.

(** [strings.Split(s, sep)] for a separator of one byte. *)
Fixpoint Split (s : string) (sep : Ascii.ascii) : list string :=
  match s with
  | "" => [""]
  | String c rest =>
      if decide (c = sep) then "" :: Split rest sep
      else match Split rest sep with
           | [] => [String c ""]
           | piece :: pieces => String c piece :: pieces
           end
  end.

(** [strings.Join(elems, sep)]. *)
Definition Join (elems : list string) (sep : string) : string :=
  String.concat sep elems.

Definition sliceOutOfRange : PanicValue :=
  PanicError (ErrRuntime "slice bounds out of range").

(** [statusUpdate] is [false] for a nil function. *)
Definition update (statusUpdate : bool) (name status : string) : list Event :=
  if statusUpdate then [StatusUpdate name status] else [].

(** The three loops that update the status of the targets. *)
Definition creating (statusUpdate : bool) (okCollections : list Collection)
  : list Event :=
  okCollections ≫= (λ collection,
    update statusUpdate (targetName collection) "creating report(s)").

Definition errorCreating (statusUpdate : bool) (collections : list Collection)
  : list Event :=
  collections ≫= (λ collection,
    update statusUpdate (targetName collection) "error creating report(s)").

Definition finishedCreating (statusUpdate : bool) (collections : list Collection)
  : list Event :=
  collections ≫= (λ collection,
    if ok collection
    then update statusUpdate (targetName collection) "finished creating report(s)"
    else []).

Definition runEvents (args : list string) : list Event :=
  [LogPrintf ("run: " ++ Join args " "); RunCommand args].

Section Reports.
Context `{!Host}.

Definition getBinPath : string * option failure :=
  match os_Executable with
  | (_, Some err) => ("", Some err)
  | (exePath, None) => (filepath_Join [filepath_Dir exePath; "tmpbin"], None)
  end.

(** The arguments of the reporter command, [cmd.Args]. *)
Definition reporterArgs (binPath : string) (collectionFilePaths : list string)
    (outputDir format : string) : list string :=
  [filepath_Join [binPath; "reporter"]; "-input"; Join collectionFilePaths ",";
   "-output"; outputDir; "-format"; format].

(** [getReports] on the calls [doWork] makes: no pointer to a collection
    or to the command line arguments is nil, and [GetName], the status
    function and the host return; [format] is [cmdLineArgs.format]. The
    outcome [Panics] is the one of the slice expression. *)
Definition getReports (collections : list Collection) (outputDir format : string)
    (statusUpdate : bool) : list Event * outcome (list string * option failure) :=
  let okCollections := filter (λ collection, ok collection = true) collections in
  let events := creating statusUpdate okCollections in
  if decide (length okCollections = 0%nat)
  then (events, Returns ([], Some ErrNoDataCollected))
  else
    let collectionFilePaths := outputFilePath <$> okCollections in
    match getBinPath with
    | (_, Some err) => (events, Returns ([], Some err))
    | (binPath, None) =>
        let args := reporterArgs binPath collectionFilePaths outputDir format in
        let events := (events ++ runEvents args)%list in
        match RunLocalCommand args with
        | (_, Some err) =>
            ((events ++ errorCreating statusUpdate collections)%list,
             Returns ([], Some err))
        | (stdout, None) =>
            let reportFilePaths := Split stdout newline in
            if decide (length reportFilePaths = 0%nat)
            then (events, Panics sliceOutOfRange)
            else
              ((events ++ finishedCreating statusUpdate collections)%list,
               Returns (take (length reportFilePaths - 1) reportFilePaths, None))
        end
    end.
End Reports.

(** The status a target is left with by a sequence of events: the one of
    the last update that names it. *)
Fixpoint lastStatus (events : list Event) (name : string) : option string :=
  match events with
  | [] => None
  | event :: rest =>
      match lastStatus rest name with
      | Some status => Some status
      | None =>
          match event with
          | StatusUpdate n status => if decide (n = name) then Some status else None
          | _ => None
          end
      end
  end.

Fixpoint contains (s : string) (c : Ascii.ascii) : bool :=
  match s with
  | "" => false
  | String c' rest => bool_decide (c' = c) || contains rest c
  end.

(** A host whose reporter writes two reports, and fails on the input
    [broken.raw]. *)
Module Example.
Definition run (args : list string) : string * option failure :=
  match args with
  | [_; _; input; _; outputDir; _; _] =>
      if decide (input = "broken.raw") then ("", Some (ErrHost "exit status 1"))
      else (outputDir ++ "/a.html" ++ String newline (outputDir ++ "/a.json")
              ++ String newline "", None)
  | _ => ("", Some (ErrHost "usage"))
  end.

#[global] Instance host : Host :=
  {| os_Executable := ("/opt/svr-info/svr-info", None);
     filepath_Dir := λ _, "/opt/svr-info";
     filepath_Join := λ elems, Join elems "/";
     RunLocalCommand := run |}.

Definition a : Collection :=
  {| targetName := "a"; ok := true; outputFilePath := "out/a.raw" |}.
Definition b : Collection :=
  {| targetName := "b"; ok := false; outputFilePath := "" |}.
Definition broken : Collection :=
  {| targetName := "c"; ok := true; outputFilePath := "broken.raw" |}.
End Example.
End Orchestrator.

(** * Properties *)

(** ** The scan of the groups *)

Lemma matching_size remaining g : (size (matching remaining g) ≤ size remaining)%nat.
Proof.
  unfold matching. apply subseteq_size.
  intros x Hx. by apply elem_of_intersection in Hx as [Hx _].
Qed.

Lemma scanned_bound remaining pre b bm mn j g :
  scanned remaining pre (b, bm, mn) → pre !! j = Some g →
  (size (matching remaining g) ≤ bm)%nat.
Proof.
  intros [[Heq Hno] | (i & g0 & (_ & _ & Hmax & _) & Heq)] Hj; simplify_eq.
  - rewrite (Hno j g Hj). lia.
  - eauto.
Qed.

Lemma lookup_snoc_inv {A} (pre : list A) (g g' : A) j :
  (pre ++ [g])%list !! j = Some g' → pre !! j = Some g' ∨ (j = length pre ∧ g' = g).
Proof.
  intros Hj. destruct (decide (j < length pre)%nat) as [Hlt | Hge].
  - left. by rewrite lookup_app_l in Hj.
  - right. rewrite lookup_app_r in Hj by lia.
    destruct (j - length pre)%nat eqn:E; simpl in Hj; [| done].
    split; [lia | congruence].
Qed.

Lemma scanned_take remaining pre g b bm mn :
  scanned remaining pre (b, bm, mn) →
  (bm < size (matching remaining g))%nat →
  winner remaining (pre ++ [g]) (length pre) g.
Proof.
  intros Hst Hlt. split; [| split; [ lia | split]].
  - rewrite lookup_app_r, Nat.sub_diag; [done | lia].
  - intros j g' [Hj | [_ ->]]%lookup_snoc_inv; [| lia].
    pose proof (scanned_bound _ _ _ _ _ _ _ Hst Hj). lia.
  - intros j g' [Hj | [-> _]]%lookup_snoc_inv Hlt'; [| lia].
    pose proof (scanned_bound _ _ _ _ _ _ _ Hst Hj). lia.
Qed.

Lemma winner_app remaining pre rest i g :
  winner remaining pre i g →
  (∀ j g', rest !! j = Some g' →
     (size (matching remaining g') ≤ size (matching remaining g))%nat) →
  winner remaining (pre ++ rest) i g.
Proof.
  intros (Hi & Hpos & Hmax & Hfirst) Hrest.
  split; [by apply lookup_app_l_Some | split; [done | split]].
  - intros j g' Hj. apply lookup_app_Some in Hj as [Hj | [_ Hj]]; eauto.
  - intros j g' Hj Hlt. apply (Hfirst j g'); [| done].
    rewrite lookup_app_l in Hj; [done |]. apply lookup_lt_Some in Hi. lia.
Qed.

Lemma scanned_skip remaining pre g b bm mn :
  scanned remaining pre (b, bm, mn) →
  ¬ (bm < size (matching remaining g))%nat →
  scanned remaining (pre ++ [g]) (b, bm, mn).
Proof.
  intros Hst Hle.
  destruct Hst as [[Heq Hno] | (i & g0 & Hw & Heq)]; simplify_eq.
  - left. split; [done |].
    intros j g' [Hj | [_ ->]]%lookup_snoc_inv; [eauto | lia].
  - right. exists i, g0. split; [| done].
    apply winner_app; [done |].
    intros [| j] g' Hj; simplify_eq/=. lia.
Qed.

Lemma scanGroups_scanned remaining rest : ∀ pre b bm mn,
  scanned remaining pre (b, bm, mn) →
  scanned remaining (pre ++ rest) (scanGroups remaining rest (length pre) b bm mn).
Proof.
  induction rest as [| g rest IH]; intros pre b bm mn Hst; simpl.
  - by rewrite app_nil_r.
  - fold (matching remaining g).
    assert (Hlen : S (length pre) = length (pre ++ [g]))
      by (rewrite length_app; simpl; lia).
    rewrite (cons_middle g pre rest), app_assoc, Hlen.
    destruct (decide (bm < size (matching remaining g))%nat) as [Hlt | Hle].
    + pose proof (scanned_take _ _ _ _ _ _ Hst Hlt) as Hw.
      destruct (decide (size (matching remaining g) = size remaining)) as [Hfull | Hnot].
      * right. exists (length pre), g. split; [| done].
        apply winner_app; [done |]. intros j g' _. rewrite Hfull.
        apply matching_size.
      * apply IH. right. by exists (length pre), g.
    + apply IH. by apply scanned_skip.
Qed.

Lemma bestGroup_scanned remaining groups :
  scanned remaining groups (bestGroup remaining groups).
Proof.
  apply (scanGroups_scanned remaining groups []). left. split; [done |].
  intros j g Hj. done.
Qed.

(** The groups that follow one that supplies all the remaining names are
    not looked at. *)
Lemma scanGroups_short_circuit remaining g rest : ∀ pre groupIdx b bm mn,
  (bm < size remaining)%nat →
  size (matching remaining g) = size remaining →
  scanGroups remaining (pre ++ g :: rest) groupIdx b bm mn
  = scanGroups remaining (pre ++ [g]) groupIdx b bm mn.
Proof.
  induction pre as [| p pre IH]; intros groupIdx b bm mn Hbm Hfull; simpl;
    fold (matching remaining g).
  - by rewrite !decide_True by lia.
  - fold (matching remaining p). pose proof (matching_size remaining p).
    destruct (decide (bm < size (matching remaining p))%nat); [| by apply IH].
    destruct (decide (size (matching remaining p) = size remaining)); [done |].
    apply IH; [lia | done].
Qed.

Lemma noMatch_Forall remaining groups :
  Forall (λ g, size (matching remaining g) = 0%nat) groups → noMatch remaining groups.
Proof.
  intros H j g Hj. rewrite Forall_lookup in H. by apply (H j).
Qed.

Lemma winner_unique remaining groups i g i' g' :
  winner remaining groups i g → winner remaining groups i' g' → i = i' ∧ g = g'.
Proof.
  intros (Hi & _ & Hmax & Hfirst) (Hi' & _ & Hmax' & Hfirst').
  assert (i = i') as ->.
  { destruct (Nat.lt_trichotomy i i') as [Hlt | [-> | Hlt]]; [| done |].
    - pose proof (Hfirst' i g Hi Hlt). pose proof (Hmax i' g' Hi'). lia.
    - pose proof (Hfirst i' g' Hi' Hlt). pose proof (Hmax' i g Hi). lia. }
  split; congruence.
Qed.

Lemma winner_noMatch remaining groups i g :
  winner remaining groups i g → noMatch remaining groups → False.
Proof. intros (Hi & Hpos & _) Hno. rewrite (Hno i g Hi) in Hpos. lia. Qed.

(** ** Assignment of a group to a set of names *)

Lemma assignAll_lookup names value : ∀ (variables : gmap string Z) k,
  assignAll names value variables !! k
  = if decide (k ∈ names) then Some value else variables !! k.
Proof.
  induction names as [| name names IH]; intros variables k.
  - case_decide as Hin; [by apply elem_of_nil in Hin | done].
  - change (assignAll (name :: names) value variables)
      with (assignAll names value (<[name:=value]> variables)).
    rewrite IH. repeat case_decide; try done.
    + exfalso. set_solver.
    + destruct (decide (k = name)) as [-> | Hne]; [apply lookup_insert_eq |].
      exfalso. set_solver.
    + apply lookup_insert_ne. set_solver.
Qed.

Lemma assignAll_union (names : gset string) value (variables : gmap string Z) :
  assignAll (ToSlice names) value variables = gset_to_gmap value names ∪ variables.
Proof.
  apply map_eq. intros k. rewrite assignAll_lookup, lookup_union, lookup_gset_to_gmap.
  unfold ToSlice. destruct (decide (k ∈ elements names)) as [Hin | Hnin].
  - apply elem_of_elements in Hin. rewrite option_guard_True by done.
    simpl. by destruct (variables !! k).
  - rewrite elem_of_elements in Hnin. rewrite option_guard_False by done.
    simpl. by destruct (variables !! k).
Qed.

Lemma assignAll_order names names' value (variables : gmap string Z) :
  names ≡ₚ names' → assignAll names value variables = assignAll names' value variables.
Proof.
  intros Hp. apply map_eq. intros k. rewrite !assignAll_lookup.
  destruct (decide (k ∈ names)) as [Hin | Hnin].
  - rewrite decide_True; [done | by rewrite <- Hp].
  - rewrite decide_False; [done | by rewrite <- Hp].
Qed.

Lemma union_assigned_lookup (names : gset string) value (variables : gmap string Z) k :
  (gset_to_gmap value names ∪ variables) !! k
  = if decide (k ∈ names) then Some value else variables !! k.
Proof.
  rewrite <- assignAll_union, assignAll_lookup. unfold ToSlice.
  destruct (decide (k ∈ elements names)) as [Hin | Hnin].
  - rewrite decide_True; [done | by apply elem_of_elements].
  - rewrite decide_False; [done | by rewrite <- elem_of_elements].
Qed.

(** ** The resolver's loop *)

Lemma size_zero_empty (X : gset string) : size X = 0%nat ↔ X = ∅.
Proof.
  split; [| intros ->; apply size_empty].
  intros H. by apply leibniz_equiv, size_empty_inv.
Qed.

Lemma matching_subseteq remaining g : matching remaining g ⊆ remaining.
Proof.
  unfold matching. intros x Hx. by apply elem_of_intersection in Hx as [Hx _].
Qed.

Lemma winner_shrinks remaining groups i g :
  winner remaining groups i g →
  matching remaining g ≠ ∅ ∧
  (size (remaining ∖ matching remaining g) < size remaining)%nat.
Proof.
  intros (_ & Hpos & _). split.
  - intros Heq. rewrite Heq, size_empty in Hpos. lia.
  - rewrite size_difference by apply matching_subseteq.
    pose proof (matching_size remaining g). lia.
Qed.

Lemma resolveLoop_done fuel metricName groups variables :
  resolveLoop (S fuel) metricName groups ∅ variables = Some (variables, None, 0%nat).
Proof.
  cbn [resolveLoop]. destruct (decide (size (∅ : gset string) = 0%nat)) as [_ | H];
    [done | by destruct H].
Qed.

Lemma resolveLoop_unfold fuel metricName groups remaining variables :
  remaining ≠ ∅ →
  resolveLoop (S fuel) metricName groups remaining variables
  = let '(bestGroupIdx, _, matchedNames) := bestGroup remaining groups in
    if decide (bestGroupIdx = -1) then
      Some (assignAll (ToSlice remaining) (-2) variables,
            Some (ErrVariablesNotFound (ToSlice remaining) metricName), 0%nat)
    else
      match resolveLoop fuel metricName groups (remaining ∖ matchedNames)
              (assignAll (ToSlice matchedNames) bestGroupIdx variables) with
      | Some (variables', err, passes) => Some (variables', err, S passes)
      | None => None
      end.
Proof.
  intros Hne. cbn [resolveLoop].
  destruct (decide (size remaining = 0%nat)) as [H | _]; [| done].
  by apply size_zero_empty in H.
Qed.

Lemma resolveLoop_Greedy metricName groups : ∀ fuel remaining variables r passes,
  resolveLoop fuel metricName groups remaining variables = Some (r, passes) →
  Greedy metricName groups remaining variables r.
Proof.
  induction fuel as [| fuel IH]; intros remaining variables r passes Hrun; [done |].
  destruct (decide (remaining = ∅)) as [-> | Hne].
  - rewrite resolveLoop_done in Hrun. simplify_eq. constructor.
  - rewrite resolveLoop_unfold in Hrun by done.
    destruct (bestGroup_scanned remaining groups) as [[Heq Hno] | (i & g & Hw & Heq)];
      rewrite Heq in Hrun.
    + rewrite decide_True in Hrun by done. simplify_eq.
      rewrite assignAll_union. by constructor.
    + rewrite decide_False in Hrun by lia.
      destruct (resolveLoop fuel _ _ _ _) as [[[v e] n] |] eqn:Hrec; [| done].
      simplify_eq. apply (Greedy_assign _ _ _ _ i g); [done | done |].
      rewrite <- assignAll_union. by eapply IH.
Qed.

Lemma Greedy_deterministic metricName groups remaining variables r r' :
  Greedy metricName groups remaining variables r →
  Greedy metricName groups remaining variables r' → r = r'.
Proof.
  intros H. revert r'. induction H as [v | rem v Hne Hno | rem v i g r Hne Hw H IH];
    intros r' H'; inversion H'; subst; try done.
  - by destruct (winner_noMatch _ _ _ _ ltac:(eassumption) Hno).
  - by destruct (winner_noMatch _ _ _ _ Hw ltac:(eassumption)).
  - match goal with Hw' : winner _ _ ?i' ?g' |- _ =>
      destruct (winner_unique _ _ _ _ _ _ Hw Hw') as [<- <-] end.
    by apply IH.
Qed.

Lemma resolveLoop_fuel metricName groups : ∀ fuel remaining variables,
  (size remaining < fuel)%nat →
  ∃ variables' err passes,
    resolveLoop fuel metricName groups remaining variables
      = Some (variables', err, passes) ∧ (passes ≤ size remaining)%nat.
Proof.
  induction fuel as [| fuel IH]; intros remaining variables Hfuel; [lia |].
  destruct (decide (remaining = ∅)) as [-> | Hne].
  - rewrite resolveLoop_done. eexists _, _, _. split; [done | lia].
  - rewrite resolveLoop_unfold by done.
    destruct (bestGroup_scanned remaining groups) as [[-> Hno] | (i & g & Hw & ->)].
    + rewrite decide_True by done. eexists _, _, _. split; [done | lia].
    + rewrite decide_False by lia.
      destruct (winner_shrinks _ _ _ _ Hw) as [_ Hlt].
      destruct (IH (remaining ∖ matching remaining g)
                  (assignAll (ToSlice (matching remaining g)) (Z.of_nat i) variables))
        as (v & e & n & -> & Hn); [lia |].
      eexists _, _, _. split; [done | lia].
Qed.

Lemma resolveLoop_enough metricName groups : ∀ fuel fuel' remaining variables,
  (size remaining < fuel)%nat → (size remaining < fuel')%nat →
  resolveLoop fuel metricName groups remaining variables
  = resolveLoop fuel' metricName groups remaining variables.
Proof.
  induction fuel as [| fuel IH]; intros [| fuel'] remaining variables H H'; try lia.
  destruct (decide (remaining = ∅)) as [-> | Hne].
  - by rewrite !resolveLoop_done.
  - rewrite !resolveLoop_unfold by done.
    destruct (bestGroup_scanned remaining groups) as [[-> Hno] | (i & g & Hw & ->)];
      [done |].
    rewrite !decide_False by lia.
    destruct (winner_shrinks _ _ _ _ Hw) as [_ Hlt].
    by rewrite (IH fuel') by lia.
Qed.

(** ** What the resolver leaves in a variable map *)

Lemma Greedy_lookup metricName groups remaining variables r :
  Greedy metricName groups remaining variables r →
  (∀ k, k ∉ remaining → r.1 !! k = variables !! k) ∧
  (∀ k, k ∈ remaining → r.1 !! k = Some Failed ∨ resolvedIn groups k (r.1 !! k)) ∧
  (r.2 = None → ∀ k, k ∈ remaining → resolvedIn groups k (r.1 !! k)) ∧
  (r.2 ≠ None → ∃ k, k ∈ remaining ∧ r.1 !! k = Some Failed).
Proof.
  induction 1 as [v | rem v Hne Hno | rem v i g r Hne Hw H IH]; simpl.
  - repeat split; [set_solver | set_solver | done].
  - repeat split.
    + intros k Hk. by rewrite union_assigned_lookup, decide_False.
    + intros k Hk. left. by rewrite union_assigned_lookup, decide_True.
    + done.
    + intros _. apply set_choose_L in Hne as [k Hk]. exists k. split; [done |].
      by rewrite union_assigned_lookup, decide_True.
  - destruct IH as (Hout & Hin & Hok & Hfail).
    assert (Hmatched : ∀ k, k ∈ matching rem g → resolvedIn groups k (r.1 !! k)).
    { intros k Hk. rewrite Hout by set_solver.
      rewrite union_assigned_lookup, decide_True by done.
      exists i, g. destruct Hw as (Hi & _). unfold matching in Hk. set_solver. }
    repeat split.
    + intros k Hk. rewrite Hout by set_solver.
      rewrite union_assigned_lookup, decide_False; [done |].
      pose proof (matching_subseteq rem g). set_solver.
    + intros k Hk. destruct (decide (k ∈ matching rem g)); [right; eauto |].
      apply Hin. set_solver.
    + intros Herr k Hk. destruct (decide (k ∈ matching rem g)); [eauto |].
      apply Hok; [done | set_solver].
    + intros Herr. destruct (Hfail Herr) as (k & Hk & Hf). exists k. split; [set_solver | done].
Qed.

Lemma variablesOf_setVariables w l m l' :
  variablesOf (setVariables w l m) l' = if decide (l = l') then m else variablesOf w l'.
Proof.
  unfold variablesOf, setVariables; simpl. case_decide as H.
  - subst. by rewrite lookup_insert_eq.
  - by rewrite lookup_insert_ne.
Qed.

Lemma loadMetricBestGroups_Greedy {Expr} (metric : MetricDefinition Expr) frame w :
  ∃ variables' err,
    loadMetricBestGroups metric frame w
      = (setVariables w (Variables metric) variables', err) ∧
    Greedy (Name metric) (EventGroups frame)
      (dom (variablesOf w (Variables metric))) (variablesOf w (Variables metric))
      (variables', err).
Proof.
  unfold loadMetricBestGroups.
  destruct (resolveLoop_fuel (Name metric) (EventGroups frame)
              (S (size (dom (variablesOf w (Variables metric)))))
              (dom (variablesOf w (Variables metric)))
              (variablesOf w (Variables metric)))
    as (v & e & n & Hrun & _); [lia |].
  cbv zeta. rewrite Hrun. exists v, e. split; [done |].
  by eapply resolveLoop_Greedy.
Qed.

Lemma Greedy_advance metricName groups (m : gmap string Z) r :
  hasUnresolved m → ¬ hasFailed m →
  Greedy metricName groups (dom m) m r → advance m r.1.
Proof.
  intros Hun Hnf HG. right. split; [done | split; [done |]].
  destruct (Greedy_lookup _ _ _ _ _ HG) as (Hout & Hin & _).
  intros k. destruct (m !! k) as [v |] eqn:Hk.
  - destruct (Hin k) as [Hf | (i & g & Hi & _)]; [by apply elem_of_dom | by left |].
    right. by exists i.
  - rewrite Hout; [done |]. by apply not_elem_of_dom.
Qed.

Lemma advance_refl m : advance m m.
Proof. by left. Qed.

Lemma advance_tried m m' :
  advance m m' → m' = m ∨ noneUnresolved m'.
Proof.
  intros [-> | (_ & _ & Hall)]; [by left | right].
  intros k v Hk. specialize (Hall k). destruct (m !! k).
  - destruct Hall as [H | [i H]]; rewrite H in Hk; simplify_eq; unfold Unresolved, Failed; lia.
  - congruence.
Qed.

Lemma advance_trans m1 m2 m3 : advance m1 m2 → advance m2 m3 → advance m1 m3.
Proof.
  intros H12 [-> | H23]; [done |].
  destruct (advance_tried _ _ H12) as [-> | Hnone]; [by right |].
  destruct H23 as (_ & [k Hk] & _). by destruct (Hnone k _ Hk).
Qed.

Lemma advance_failed m m' : advance m m' → hasFailed m → m' = m.
Proof. by intros [-> | (Hnf & _)] Hf. Qed.

Lemma advance_resolved m m' : advance m m' → allResolved m → m' = m.
Proof.
  intros [-> | (_ & [k Hk] & _)] Hall; [done |].
  specialize (Hall k _ Hk). unfold ResolvedToGroup, Unresolved in Hall. lia.
Qed.

Lemma advance_transition m m' k :
  advance m m' → settled m → transition (m !! k) (m' !! k).
Proof.
  intros [-> | (_ & [k0 Hk0] & Hall)] Hs; [by left |].
  destruct Hs as [Hun | Hnone]; [| by destruct (Hnone k0 _ Hk0)].
  specialize (Hall k). destruct (m !! k) as [v |] eqn:Hk; [| by left].
  right. rewrite (Hun k v Hk). split; [done |].
  destruct Hall as [H | [i H]]; [by left | right].
  exists (Z.of_nat i). split; [done |]. unfold ResolvedToGroup. lia.
Qed.

Lemma advance_settled m m' : advance m m' → settled m → settled m'.
Proof.
  intros H Hs. destruct (advance_tried _ _ H) as [-> | Hnone]; [done | by right].
Qed.

Lemma advances_refl w : advances w w.
Proof. intros l. apply advance_refl. Qed.

Lemma advances_trans w1 w2 w3 : advances w1 w2 → advances w2 w3 → advances w1 w3.
Proof. intros H12 H23 l. eapply advance_trans; eauto. Qed.

Lemma advances_logCompile w expression : advances w (logCompile w expression).
Proof. intros l. apply advance_refl. Qed.

(** ** The two loops of [getExpressionVariables] *)

Lemma checkVariables_failed entries : ∀ loadGroups e,
  checkVariables entries loadGroups = inr e →
  ∃ k, (k, Failed) ∈ entries ∧ e = ErrPreviouslyFailed k.
Proof.
  induction entries as [| [k v] entries IH]; intros b e H; simpl in H; [done |].
  destruct (decide (v = -2)) as [-> | Hv].
  - simplify_eq. exists k. split; [left | done].
  - destruct (IH _ _ H) as (k' & Hin & ->). exists k'. split; [by right | done].
Qed.

Lemma checkVariables_load entries : ∀ loadGroups b,
  checkVariables entries loadGroups = inl b →
  (∀ k, (k, Failed) ∉ entries) ∧
  (b = true ↔ loadGroups = true ∨ ∃ k, (k, Unresolved) ∈ entries).
Proof.
  induction entries as [| [k v] entries IH]; intros b0 b H; simpl in H.
  - simplify_eq. split; [intros k Hk; by apply elem_of_nil in Hk |].
    split; [by left | intros [? | [k Hk]]; [done | by apply elem_of_nil in Hk]].
  - destruct (decide (v = -2)) as [-> | Hv]; [done |].
    destruct (IH _ _ H) as [Hnf Hb]. split.
    + intros k' [Heq | Hin]%elem_of_cons; [unfold Failed in Heq; congruence | by eapply Hnf].
    + rewrite Hb. split.
      * intros [Hl | [k' Hk']]; [| right; exists k'; by right].
        destruct (decide (v = -1)) as [-> | Hv1]; [| by left].
        right. exists k. left.
      * intros [-> | [k' [Heq | Hin]%elem_of_cons]].
        -- left. by destruct (decide (v = -1)).
        -- unfold Unresolved in Heq. simplify_eq. left. by rewrite decide_True.
        -- right. by exists k'.
Qed.

Lemma checkVariables_map (m : gmap string Z) :
  match checkVariables (map_to_list m) false with
  | inr e => hasFailed m ∧ ∃ k, e = ErrPreviouslyFailed k
  | inl b => ¬ hasFailed m ∧ (b = true ↔ hasUnresolved m)
  end.
Proof.
  destruct (checkVariables (map_to_list m) false) as [b | e] eqn:H.
  - destruct (checkVariables_load _ _ _ H) as [Hnf Hb]. split.
    + intros [k Hk]. apply (Hnf k). by apply elem_of_map_to_list.
    + rewrite Hb. split.
      * intros [? | [k Hk]]; [done |]. exists k. by apply elem_of_map_to_list.
      * intros [k Hk]. right. exists k. by apply elem_of_map_to_list.
  - destruct (checkVariables_failed _ _ _ H) as (k & Hk & ->). split; [| by exists k].
    exists k. by apply elem_of_map_to_list.
Qed.

Lemma groupAt_Failed frame : groupAt frame Failed = None.
Proof. done. Qed.

Lemma setVariableValues_lookup frame previousTimestamp metadata entries :
  ∀ acc err variables err',
  NoDup entries.*1 →
  setVariableValues entries frame previousTimestamp metadata acc err
    = Returns (variables, err') →
  err' = err ∧
  (∀ k, k ∉ entries.*1 → variables !! k = acc !! k) ∧
  (∀ k idx, (k, idx) ∈ entries →
     ∃ group, groupAt frame idx = Some group ∧
       variables !! k = Some (VFloat (normalized group k (Timestamp frame)
                                        previousTimestamp metadata))).
Proof.
  induction entries as [| [k0 idx0] entries IH]; intros acc err variables err' Hnd H;
    simpl in H.
  - simplify_eq. split; [done | split; [done |]]. intros k idx Hin.
    by apply elem_of_nil in Hin.
  - apply NoDup_cons in Hnd as [Hk0 Hnd].
    destruct (groupAt frame idx0) as [group |] eqn:Hg; [| done].
    destruct (decide (idx0 = -2)) as [-> | _]; [done |].
    destruct (IH _ _ _ _ Hnd H) as (-> & Hout & Hin). split; [done | split].
    + intros k Hk. rewrite Hout by set_solver. apply lookup_insert_ne. set_solver.
    + intros k idx [Heq | Hin']%elem_of_cons; [| by apply Hin].
      simplify_eq. exists group. split; [done |].
      rewrite Hout by done. apply lookup_insert_eq.
Qed.

Lemma setVariableValues_status frame previousTimestamp previousTimestamp' metadata
    metadata' entries : ∀ acc acc' err,
  status (setVariableValues entries frame previousTimestamp metadata acc err)
  = status (setVariableValues entries frame previousTimestamp' metadata' acc' err).
Proof.
  induction entries as [| [k0 idx0] entries IH]; intros acc acc' err; simpl; [done |].
  destruct (groupAt frame idx0); [apply IH | done].
Qed.

Lemma setVariableValues_returns frame previousTimestamp metadata entries :
  ∀ acc err,
  (∀ k idx, (k, idx) ∈ entries → is_Some (groupAt frame idx)) →
  ∃ variables,
    setVariableValues entries frame previousTimestamp metadata acc err
      = Returns (variables, err).
Proof.
  induction entries as [| [k0 idx0] entries IH]; intros acc err Hall; simpl.
  - by eexists.
  - destruct (Hall k0 idx0) as [group Hg]; [left |]. rewrite Hg.
    rewrite decide_False; [apply IH; intros k idx Hin; apply (Hall k); by right |].
    intros ->. by rewrite groupAt_Failed in Hg.
Qed.

(** ** The order of enumeration *)

(** Go enumerates a map in no specified order. Apart from the name that
    [ErrPreviouslyFailed] carries, the two loops of
    [getExpressionVariables] give the same results in any order. *)
Lemma checkVariables_order entries entries' loadGroups :
  entries ≡ₚ entries' →
  match checkVariables entries loadGroups, checkVariables entries' loadGroups with
  | inl b, inl b' => b = b'
  | inr _, inr _ => True
  | _, _ => False
  end.
Proof.
  intros Hp.
  destruct (checkVariables entries loadGroups) as [b | e] eqn:H,
           (checkVariables entries' loadGroups) as [b' | e'] eqn:H'; [| | | done].
  - apply checkVariables_load in H as [_ Hb], H' as [_ Hb'].
    apply eq_true_iff_eq. rewrite Hb, Hb'. by setoid_rewrite Hp.
  - apply checkVariables_load in H as [Hnf _].
    apply checkVariables_failed in H' as (k & Hk & _).
    apply (Hnf k). by rewrite Hp.
  - apply checkVariables_load in H' as [Hnf _].
    apply checkVariables_failed in H as (k & Hk & _).
    apply (Hnf k). by rewrite <- Hp.
Qed.

Lemma setVariableValues_panic frame previousTimestamp metadata entries :
  ∀ acc err p,
  setVariableValues entries frame previousTimestamp metadata acc err = Panics p →
  p = indexOutOfRange ∧ ∃ k idx, (k, idx) ∈ entries ∧ groupAt frame idx = None.
Proof.
  induction entries as [| [k0 idx0] entries IH]; intros acc err p H; simpl in H;
    [done |].
  destruct (groupAt frame idx0) as [group |] eqn:Hg.
  - destruct (IH _ _ _ H) as (-> & k & idx & Hin & Hnone).
    split; [done |]. exists k, idx. split; [by right | done].
  - simplify_eq. split; [done |]. exists k0, idx0. split; [left | done].
Qed.

Lemma setVariableValues_order frame previousTimestamp metadata entries entries' :
  NoDup entries.*1 → entries ≡ₚ entries' →
  setVariableValues entries frame previousTimestamp metadata ∅ None
  = setVariableValues entries' frame previousTimestamp metadata ∅ None.
Proof.
  intros Hnd Hp.
  assert (Hnd' : NoDup entries'.*1) by by rewrite <- Hp.
  destruct (setVariableValues entries frame previousTimestamp metadata ∅ None)
    as [[v e] | p] eqn:H,
    (setVariableValues entries' frame previousTimestamp metadata ∅ None)
    as [[v' e'] | p'] eqn:H'.
  - apply setVariableValues_lookup in H as (-> & Hout & Hin); [| done].
    apply setVariableValues_lookup in H' as (-> & Hout' & Hin'); [| done].
    do 2 f_equal. apply map_eq. intros k.
    destruct (decide (k ∈ entries.*1)) as [Hk | Hk].
    + apply list_elem_of_fmap in Hk as ([k' idx] & -> & Hk). simpl.
      destruct (Hin _ _ Hk) as (g & Hg & ->).
      rewrite Hp in Hk. destruct (Hin' _ _ Hk) as (g' & Hg' & ->). congruence.
    + rewrite Hout by done. rewrite Hout'; [done |]. by rewrite <- Hp.
  - apply setVariableValues_lookup in H as (_ & _ & Hin); [| done].
    apply setVariableValues_panic in H' as (_ & k & idx & Hk & Hnone).
    rewrite <- Hp in Hk. destruct (Hin _ _ Hk) as (g & Hg & _). congruence.
  - apply setVariableValues_lookup in H' as (_ & _ & Hin); [| done].
    apply setVariableValues_panic in H as (_ & k & idx & Hk & Hnone).
    rewrite Hp in Hk. destruct (Hin _ _ Hk) as (g & Hg & _). congruence.
  - apply setVariableValues_panic in H as [-> _].
    by apply setVariableValues_panic in H' as [-> _].
Qed.

Section Normalizer.
Context {Expr : Type}.
Variables (metric : MetricDefinition Expr) (frame : EventFrame).
Variables (previousTimestamp : float64) (metadata : Metadata) (w : World).

Lemma getExpressionVariables_cases :
  let m := variablesOf w (Variables metric) in
  (hasFailed m ∧
   ∃ k, getExpressionVariables metric frame previousTimestamp metadata w
        = (w, Returns (∅, Some (ErrPreviouslyFailed k)))) ∨
  (¬ hasFailed m ∧ ¬ hasUnresolved m ∧
   getExpressionVariables metric frame previousTimestamp metadata w
   = (w, setVariableValues (map_to_list m) frame previousTimestamp metadata ∅ None)) ∨
  (¬ hasFailed m ∧ hasUnresolved m ∧
   ∃ m' err,
     Greedy (Name metric) (EventGroups frame) (dom m) m (m', err) ∧
     getExpressionVariables metric frame previousTimestamp metadata w
     = (setVariables w (Variables metric) m',
        match err with
        | Some e => Returns (∅, Some (ErrGroupAssignment e))
        | None => setVariableValues (map_to_list m') frame previousTimestamp
                    metadata ∅ None
        end)).
Proof.
  intros m. unfold getExpressionVariables. fold m.
  pose proof (checkVariables_map m) as Hc.
  destruct (checkVariables (map_to_list m) false) as [[|] | e].
  - destruct Hc as [Hnf Hb]. right; right. split; [done | split; [by apply Hb |]].
    destruct (loadMetricBestGroups_Greedy metric frame w) as (m' & err & -> & HG).
    exists m', err. split; [done |].
    destruct err; [done |]. by rewrite variablesOf_setVariables, decide_True.
  - destruct Hc as [Hnf Hb]. right; left. split; [done | split; [| done]].
    intros Hun. apply Hb in Hun. done.
  - destruct Hc as [Hf [k ->]]. left. split; [done | by exists k].
Qed.

Lemma getExpressionVariables_advances w' o :
  getExpressionVariables metric frame previousTimestamp metadata w = (w', o) →
  advances w w' ∧ Compiled w' = Compiled w.
Proof.
  intros H.
  destruct getExpressionVariables_cases
    as [(_ & k & Heq) | [(_ & _ & Heq) | (Hnf & Hun & m' & err & HG & Heq)]];
    rewrite Heq in H; simplify_eq; try (split; [apply advances_refl | done]).
  split; [| done]. intros l. rewrite variablesOf_setVariables.
  case_decide as Hl; [| apply advance_refl]. subst l.
  by apply (Greedy_advance _ _ _ _ Hun Hnf HG).
Qed.
End Normalizer.

(** ** The frame pipeline *)

Section Pipeline.
Context {Expr : Type} `{!Collaborators Expr}.

Lemma evaluateExpression_maps (metric : MetricDefinition Expr) variables functions w :
  Maps (evaluateExpression metric variables functions w).1 = Maps w.
Proof.
  unfold evaluateExpression.
  destruct (EvaluatorExpression metric); [done |].
  by destruct (NewEvaluableExpressionWithFunctions _ _) as [[? [?|]] | ?].
Qed.

Lemma evaluateExpression_advances (metric : MetricDefinition Expr) variables functions w :
  advances w (evaluateExpression metric variables functions w).1.
Proof.
  intros l. unfold variablesOf. rewrite evaluateExpression_maps. apply advance_refl.
Qed.

Lemma processMetrics_cons (metricDef : MetricDefinition Expr) rest eventFrame functions
    previousTimestamp metadata metrics err w :
  processMetrics (metricDef :: rest) eventFrame functions previousTimestamp metadata
    metrics err w
  = match getExpressionVariables metricDef eventFrame previousTimestamp metadata w with
    | (w1, Panics p) => (w1, Panics p)
    | (w1, Returns (_, Some _)) =>
        processMetrics rest eventFrame functions previousTimestamp metadata
          metrics None w1
    | (w1, Returns (variables, None)) =>
        match evaluateExpression metricDef variables functions w1 with
        | (w2, Panics p) => (w2, Panics p)
        | (w2, Returns (_, Some _)) =>
            processMetrics rest eventFrame functions previousTimestamp metadata
              metrics None w2
        | (w2, Returns (result, None)) =>
            match result with
            | VFloat value =>
                processMetrics rest eventFrame functions previousTimestamp
                  metadata
                  (metrics ++ [{| Metric_Name := Name metricDef;
                                  Metric_Value := value |}])
                  None w2
            | _ => (w2, Panics interfaceConversion)
            end
        end
    end.
Proof. reflexivity. Qed.

Lemma processMetrics_advances frame functions previousTimestamp metadata :
  ∀ (metricDefinitions : list (MetricDefinition Expr)) metrics err w,
  advances w (processMetrics metricDefinitions frame functions previousTimestamp
                metadata metrics err w).1.
Proof.
  induction metricDefinitions as [| d rest IH]; intros metrics err w;
    [apply advances_refl |].
  rewrite processMetrics_cons.
  destruct (getExpressionVariables d frame previousTimestamp metadata w)
    as [w1 o1] eqn:H1.
  apply getExpressionVariables_advances in H1 as [H1 _].
  destruct o1 as [[variables [e |]] | p]; simpl; [| | done].
  { eapply advances_trans; [exact H1 | apply IH]. }
  pose proof (evaluateExpression_advances d variables functions w1) as H2.
  destruct (evaluateExpression d variables functions w1) as [w2 o2].
  simpl in H2. pose proof (advances_trans _ _ _ H1 H2) as H12.
  destruct o2 as [[result [e |]] | p]; simpl; [| | done].
  { eapply advances_trans; [exact H12 | apply IH]. }
  destruct result; simpl; try done.
  eapply advances_trans; [exact H12 | apply IH].
Qed.

Lemma advances_hasFailed w w' l :
  advances w w' → hasFailed (variablesOf w l) → hasFailed (variablesOf w' l).
Proof. intros H Hf. by rewrite (advance_failed _ _ (H l) Hf). Qed.

Lemma processMetrics_output frame functions previousTimestamp metadata :
  ∀ (metricDefinitions : list (MetricDefinition Expr)) metrics err w w' metrics' err',
  processMetrics metricDefinitions frame functions previousTimestamp metadata
    metrics err w = (w', Returns (metrics', err')) →
  ∀ x, x ∈ metrics' →
    x ∈ metrics ∨
    ∃ d, d ∈ metricDefinitions ∧ Metric_Name x = Name d ∧
         ¬ hasFailed (variablesOf w (Variables d)).
Proof.
  induction metricDefinitions as [| d rest IH];
    intros metrics err w w' metrics' err' H x Hx.
  - simpl in H. simplify_eq. by left.
  - rewrite processMetrics_cons in H. assert (Hrest : ∀ w1 acc e0,
        advances w w1 →
        processMetrics rest frame functions previousTimestamp metadata acc e0 w1
          = (w', Returns (metrics', err')) →
        x ∈ acc ∨
        ∃ d0, d0 ∈ d :: rest ∧ Metric_Name x = Name d0 ∧
              ¬ hasFailed (variablesOf w (Variables d0))).
    { intros w1 acc e0 Hadv Hrun.
      destruct (IH _ _ _ _ _ _ Hrun x Hx) as [? | (d0 & Hin & Hname & Hnf)]; [by left |].
      right. exists d0. split; [by right | split; [done |]].
      intros Hf. apply Hnf. by eapply advances_hasFailed. }
    destruct (getExpressionVariables_cases d frame previousTimestamp metadata w)
      as [(_ & k & Heq) | Hok].
    { rewrite Heq in H. apply (Hrest w metrics None); [apply advances_refl | done]. }
    assert (Hnf : ¬ hasFailed (variablesOf w (Variables d))).
    { by destruct Hok as [(? & _) | (? & _)]. }
    clear Hok.
    destruct (getExpressionVariables d frame previousTimestamp metadata w)
      as [w1 o1] eqn:H1.
    apply getExpressionVariables_advances in H1 as [H1 _].
    destruct o1 as [[variables [e |]] | p]; [eauto | | done].
    pose proof (evaluateExpression_advances d variables functions w1) as H2.
    destruct (evaluateExpression d variables functions w1) as [w2 o2].
    simpl in H2. pose proof (advances_trans _ _ _ H1 H2) as H12.
    destruct o2 as [[result [e |]] | p]; [eauto | | done].
    destruct result; try done.
    destruct (Hrest _ _ _ H12 H) as [Hin | ?]; [| by right].
    apply elem_of_app in Hin as [? | Hin]; [by left |].
    apply list_elem_of_singleton in Hin as ->. right. exists d.
    split; [left | done].
Qed.

Lemma processEvents_advances perfEvents (metricDefinitions : list (MetricDefinition Expr))
    functions previousTimestamp metadata w :
  advances w (processEvents perfEvents metricDefinitions functions previousTimestamp
                metadata w).1.
Proof.
  unfold processEvents. destruct (getEventFrame perfEvents) as [frame e].
  match goal with |- context [processMetrics ?a ?b ?c ?d ?e ?f ?g ?h] =>
    pose proof (processMetrics_advances b c d e a f g h) as H;
    destruct (processMetrics a b c d e f g h) as [w' [[? ?] | ?]] end; done.
Qed.

Lemma later_advances (metricDefinitions : list (MetricDefinition Expr)) w w' :
  later metricDefinitions w w' → advances w w'.
Proof.
  induction 1 as [w | w w1 w2 perfEvents functions prev md o Hcall _ IH];
    [apply advances_refl |].
  eapply advances_trans; [| done].
  pose proof (processEvents_advances perfEvents metricDefinitions functions prev md w) as H.
  by rewrite Hcall in H.
Qed.

Lemma later_trans (metricDefinitions : list (MetricDefinition Expr)) w1 w2 w3 :
  later metricDefinitions w1 w2 → later metricDefinitions w2 w3 →
  later metricDefinitions w1 w3.
Proof. induction 1; [done |]. intros. econstructor; eauto. Qed.

Lemma Name_unique (metricDefinitions : list (MetricDefinition Expr)) d d' :
  NoDup (Name <$> metricDefinitions) →
  d ∈ metricDefinitions → d' ∈ metricDefinitions → Name d = Name d' → d = d'.
Proof.
  induction metricDefinitions as [| d0 rest IH]; intros Hnd Hd Hd' Hname;
    [by apply elem_of_nil in Hd |].
  rewrite fmap_cons in Hnd. apply NoDup_cons in Hnd as [Hd0 Hnd].
  apply elem_of_cons in Hd as [-> | Hd]; apply elem_of_cons in Hd' as [-> | Hd'].
  - done.
  - destruct Hd0. rewrite Hname. by apply list_elem_of_fmap_2.
  - destruct Hd0. rewrite <- Hname. by apply list_elem_of_fmap_2.
  - by apply IH.
Qed.

End Pipeline.

(** ** The bindings of the normalizer *)

Lemma div_by_zero x s :
  F64.is_inf (F64.div x (S754_zero s)) || F64.is_nan (F64.div x (S754_zero s)) = true.
Proof. by destruct x. Qed.

Section Bindings.
Context {Expr : Type}.
Variables (metric : MetricDefinition Expr) (frame : EventFrame).
Variables (previousTimestamp : float64) (metadata : Metadata) (w : World).

Lemma map_entries_lookup (m : gmap string Z) previous md variables err :
  setVariableValues (map_to_list m) frame previous md ∅ None
    = Returns (variables, err) →
  err = None ∧
  ∀ k, match m !! k with
       | Some idx => ∃ group, groupAt frame idx = Some group ∧
           variables !! k
           = Some (VFloat (normalized group k (Timestamp frame) previous md))
       | None => variables !! k = None
       end.
Proof.
  intros H. apply setVariableValues_lookup in H as (-> & Hout & Hin);
    [| apply NoDup_fst_map_to_list].
  split; [done |]. intros k. destruct (m !! k) as [idx |] eqn:Hk.
  - apply Hin. by apply elem_of_map_to_list.
  - rewrite Hout; [done |]. intros Hin'.
    apply list_elem_of_fmap in Hin' as ([k' idx] & -> & Hin').
    apply elem_of_map_to_list in Hin'. simpl in Hk. congruence.
Qed.

Lemma getExpressionVariables_bindings w' variables :
  getExpressionVariables metric frame previousTimestamp metadata w
    = (w', Returns (variables, None)) →
  ∀ k, match variablesOf w' (Variables metric) !! k with
       | Some idx => ∃ group, groupAt frame idx = Some group ∧
           variables !! k
           = Some (VFloat (normalized group k (Timestamp frame)
                             previousTimestamp metadata))
       | None => variables !! k = None
       end.
Proof.
  intros H.
  destruct (getExpressionVariables_cases metric frame previousTimestamp metadata w)
    as [(_ & k & Heq) | [(_ & _ & Heq) | (_ & _ & m' & err & _ & Heq)]];
    rewrite Heq in H.
  - done.
  - injection H as <- H. by apply map_entries_lookup in H as [_ H].
  - destruct err; [done |]. injection H as <- H.
    rewrite variablesOf_setVariables, decide_True by done.
    by apply map_entries_lookup in H as [_ H].
Qed.

Lemma getExpressionVariables_interval previous' :
  (getExpressionVariables metric frame previous' metadata w).1
  = (getExpressionVariables metric frame previousTimestamp metadata w).1 ∧
  status (getExpressionVariables metric frame previous' metadata w).2
  = status (getExpressionVariables metric frame previousTimestamp metadata w).2.
Proof.
  unfold getExpressionVariables.
  destruct (checkVariables _ _) as [loadGroups | e]; [| done].
  destruct (if loadGroups then loadMetricBestGroups metric frame w else (w, None))
    as [w1 [e |]]; [done |].
  split; [done | apply setVariableValues_status].
Qed.

Lemma getExpressionVariables_in_range :
  (∀ k idx, variablesOf w (Variables metric) !! k = Some idx →
     is_Some (groupAt frame idx)) →
  ∃ variables,
    getExpressionVariables metric frame previousTimestamp metadata w
    = (w, Returns (variables, None)).
Proof.
  intros Hall.
  assert (Hge : ∀ k idx, variablesOf w (Variables metric) !! k = Some idx → 0 <= idx).
  { intros k idx Hk. destruct (Hall k idx Hk) as [g Hg]. unfold groupAt in Hg.
    by case_decide. }
  destruct (getExpressionVariables_cases metric frame previousTimestamp metadata w)
    as [([k Hk] & _) | [(_ & _ & Heq) | (_ & [k Hk] & _)]].
  - apply Hge in Hk. unfold Failed in Hk. lia.
  - rewrite Heq.
    destruct (setVariableValues_returns frame previousTimestamp metadata
                (map_to_list (variablesOf w (Variables metric))) ∅ None)
      as [variables ->]; [| by exists variables].
    intros k idx Hin. apply elem_of_map_to_list in Hin. eauto.
  - apply Hge in Hk. unfold Unresolved in Hk. lia.
Qed.
End Bindings.

(** ** Conversion of integers *)

Lemma shr_1_nonneg mrs : 0 <= shr_m mrs → 0 <= shr_m (shr_1 mrs).
Proof. destruct mrs as [[| [p | p |] | p] r s]; simpl; lia. Qed.

Lemma iter_shr_1_nonneg n : ∀ mrs, 0 <= shr_m mrs → 0 <= shr_m (SpecFloat.iter_pos shr_1 n mrs).
Proof.
  induction n as [n IH | n IH |]; intros mrs H; simpl;
    auto using shr_1_nonneg.
Qed.

Lemma shr_fexp_nonneg prec emax m e l :
  0 <= m → 0 <= shr_m (shr_fexp prec emax m e l).1.
Proof.
  intros H. unfold shr_fexp, shr.
  assert (0 <= shr_m (shr_record_of_loc m l)) by by destruct l as [| []].
  destruct (_ - e); simpl; auto using iter_shr_1_nonneg.
Qed.

Lemma round_nearest_even_nonneg m l : 0 <= m → 0 <= round_nearest_even m l.
Proof. intros H. destruct l as [| []]; simpl; try lia. destruct (Z.even m); lia. Qed.

Lemma binary_round_aux_not_nan prec emax s m e l :
  0 <= m → F64.is_nan (binary_round_aux prec emax s m e l) = false.
Proof.
  intros H. unfold binary_round_aux.
  pose proof (shr_fexp_nonneg prec emax m e l H) as H1.
  destruct (shr_fexp prec emax m e l) as [mrs' e']. simpl in H1.
  pose proof (shr_fexp_nonneg prec emax _ e' loc_Exact
                (round_nearest_even_nonneg _ (loc_of_shr_record mrs') H1)) as H2.
  destruct (shr_fexp prec emax _ e' loc_Exact) as [mrs'' e'']. simpl in H2.
  destruct (shr_m mrs''); [done | by case_match | lia].
Qed.

Lemma of_int_not_nan t : F64.is_nan (F64.of_int t) = false.
Proof.
  unfold F64.of_int, binary_normalize, binary_round.
  destruct t; [done | |]; destruct (shl_align _ _ _); by apply binary_round_aux_not_nan.
Qed.

(** ** Order of float64 values *)

Lemma compare_cont_swap m m' :
  Pos.compare_cont Eq m' m = CompOpp (Pos.compare_cont Eq m m').
Proof. by rewrite Pos.compare_cont_antisym. Qed.

Lemma SFcompare_swap x y : SFcompare y x = CompOpp <$> SFcompare x y.
Proof.
  destruct x as [[] | [] | | [] mx ex], y as [[] | [] | | [] my ey]; try done; simpl;
    rewrite (Z.compare_antisym ey ex), (compare_cont_swap mx my);
    destruct (Z.compare ey ex); simpl; try done;
    by destruct (Pos.compare_cont Eq mx my).
Qed.

Lemma SFcompare_same x : F64.is_nan x = false → SFcompare x x = Some Eq.
Proof.
  destruct x as [[] | [] | | [] m e]; try done; intros _; simpl;
    rewrite Z.compare_refl; fold (Pos.compare m m); by rewrite Pos.compare_refl.
Qed.

Lemma SFcompare_nan x y :
  F64.is_nan x = false → F64.is_nan y = false → is_Some (SFcompare x y).
Proof. destruct x as [| | | [] ? ?], y as [| | | [] ? ?]; by eauto. Qed.

Lemma leb_same x : F64.is_nan x = false → F64.leb x x = true.
Proof. intros H. unfold F64.leb, SFleb. by rewrite SFcompare_same. Qed.

Lemma max_larger x y :
  F64.is_nan x = false → F64.is_nan y = false →
  (F64.max x y = x ∨ F64.max x y = y) ∧
  F64.leb x (F64.max x y) = true ∧ F64.leb y (F64.max x y) = true.
Proof.
  intros Hx Hy. destruct (SFcompare_nan x y Hx Hy) as [c Hc].
  pose proof (SFcompare_swap x y) as Hs. rewrite Hc in Hs. simpl in Hs.
  unfold F64.max. rewrite Hc. destruct c.
  - assert (Hxy : F64.leb x y = true) by (unfold F64.leb, SFleb; by rewrite Hc).
    assert (Hyx : F64.leb y x = true) by (unfold F64.leb, SFleb; by rewrite Hs).
    destruct x as [[] | | |], y as [[] | | |]; auto using leb_same.
  - split; [by right |]. split; [| by apply leb_same].
    unfold F64.leb, SFleb. by rewrite Hc.
  - split; [by left |]. split; [by apply leb_same |].
    unfold F64.leb, SFleb. by rewrite Hs.
Qed.

Lemma min_smaller x y :
  F64.is_nan x = false → F64.is_nan y = false →
  (F64.min x y = x ∨ F64.min x y = y) ∧
  F64.leb (F64.min x y) x = true ∧ F64.leb (F64.min x y) y = true.
Proof.
  intros Hx Hy. destruct (SFcompare_nan x y Hx Hy) as [c Hc].
  pose proof (SFcompare_swap x y) as Hs. rewrite Hc in Hs. simpl in Hs.
  unfold F64.min. rewrite Hc. destruct c.
  - assert (Hxy : F64.leb x y = true) by (unfold F64.leb, SFleb; by rewrite Hc).
    assert (Hyx : F64.leb y x = true) by (unfold F64.leb, SFleb; by rewrite Hs).
    destruct x as [[] | | |], y as [[] | | |]; auto using leb_same.
  - split; [by left |]. split; [by apply leb_same |].
    unfold F64.leb, SFleb. by rewrite Hc.
  - split; [by right |]. split; [| by apply leb_same].
    unfold F64.leb, SFleb. by rewrite Hs.
Qed.


Lemma asFloat64_numeric v : numeric v → F64.is_nan (asFloat64 v) = false.
Proof. destruct v; try done. intros _. apply of_int_not_nan. Qed.


(** ** Errors and faults in the pipeline *)

Section Faults.
Context {Expr : Type} `{!Collaborators Expr}.

Lemma processMetrics_nil_error frame functions previousTimestamp metadata :
  ∀ (metricDefinitions : list (MetricDefinition Expr)) metrics w w' metrics' err,
  processMetrics metricDefinitions frame functions previousTimestamp metadata
    metrics None w = (w', Returns (metrics', err)) →
  err = None.
Proof.
  induction metricDefinitions as [| d rest IH]; intros metrics w w' metrics' err H.
  - simpl in H. by simplify_eq.
  - rewrite processMetrics_cons in H.
    destruct (getExpressionVariables d frame previousTimestamp metadata w)
      as [w1 [[variables [e |]] | p]]; [eauto | | done].
    destruct (evaluateExpression d variables functions w1)
      as [w2 [[result [e |]] | p]]; [eauto | | done].
    destruct result; try done. eauto.
Qed.

Lemma processMetrics_error_dropped frame functions previousTimestamp metadata
    (d : MetricDefinition Expr) rest metrics err w w' metrics' err' :
  processMetrics (d :: rest) frame functions previousTimestamp metadata
    metrics err w = (w', Returns (metrics', err')) →
  err' = None.
Proof.
  intros H. rewrite processMetrics_cons in H.
  destruct (getExpressionVariables d frame previousTimestamp metadata w)
    as [w1 [[variables [e |]] | p]]; [by eapply processMetrics_nil_error | | done].
  destruct (evaluateExpression d variables functions w1)
    as [w2 [[result [e |]] | p]]; [by eapply processMetrics_nil_error | | done].
  destruct result; try done. by eapply processMetrics_nil_error.
Qed.

Lemma evaluateExpression_compiles (metric : MetricDefinition Expr) variables functions w :
  EvaluatorExpression metric = None →
  Compiled (evaluateExpression metric variables functions w).1
  = Expression metric :: Compiled w.
Proof.
  intros H. unfold evaluateExpression. rewrite H.
  by destruct (NewEvaluableExpressionWithFunctions _ _) as [[? [?|]] | ?].
Qed.

Lemma evaluateExpression_Fault (metric : MetricDefinition Expr) variables functions e w :
  Fault metric variables functions e →
  ∃ result, (evaluateExpression metric variables functions w).2
            = Returns (result, Some e).
Proof.
  unfold evaluateExpression.
  intros [ev e0 Hnil Hc | e0 Hnil Hc | ev result e0 [Hev | [Hnil Hc]] He
          | ev e0 [Hev | [Hnil Hc]] He].
  - rewrite Hnil, Hc. by eexists.
  - rewrite Hnil, Hc. by eexists.
  - rewrite Hev. unfold callEvaluate. rewrite Hev, He. by eexists.
  - rewrite Hnil, Hc. unfold callEvaluate. simpl. rewrite He. by eexists.
  - rewrite Hev. unfold callEvaluate. rewrite Hev, He. by eexists.
  - rewrite Hnil, Hc. unfold callEvaluate. simpl. rewrite He. by eexists.
Qed.
End Faults.

(** ** Definitions that no group supplies *)

Section Isolation.
Context {Expr : Type} `{!Collaborators Expr}.

Lemma getExpressionVariables_unresolvable (bad : MetricDefinition Expr) frame
    previousTimestamp metadata w :
  let m := variablesOf w (Variables bad) in
  m ≠ ∅ → allUnresolved m → noMatch (dom m) (EventGroups frame) →
  ∃ e, getExpressionVariables bad frame previousTimestamp metadata w
       = (setVariables w (Variables bad) (gset_to_gmap Failed (dom m) ∪ m),
          Returns (∅, Some e)).
Proof.
  intros m Hne Hall Hno.
  assert (Hdom : dom m ≠ ∅) by by rewrite dom_empty_iff_L.
  destruct (getExpressionVariables_cases bad frame previousTimestamp metadata w)
    as [([k Hk] & _) | [(_ & Hnu & _) | (_ & _ & m' & err & HG & Heq)]].
  - fold m in Hk. by specialize (Hall k _ Hk).
  - destruct Hnu. fold m. apply map_choose in Hne as (k & v & Hk).
    exists k. by rewrite Hk, (Hall k v Hk).
  - fold m in HG.
    pose proof (Greedy_deterministic _ _ _ _ _ _ HG
                  (Greedy_failed (Name bad) (EventGroups frame) (dom m) m Hdom Hno))
      as Hr.
    simplify_eq. rewrite Heq. by eexists.
Qed.
End Isolation.

(** ** Variables that no group supplies *)

Lemma noMatch_not_supplied remaining groups k :
  noMatch remaining groups → k ∈ remaining → ¬ supplied groups k.
Proof.
  intros Hno Hk (i & g & Hi & Hg). specialize (Hno i g Hi).
  apply size_zero_empty in Hno. unfold matching in Hno. set_solver.
Qed.

Lemma resolvedIn_supplied groups k state :
  resolvedIn groups k state → supplied groups k ∧ state ≠ Some Failed.
Proof.
  intros (i & g & -> & Hi & Hg). split; [by exists i, g |].
  unfold Failed. intros [= H]. lia.
Qed.

Lemma Greedy_failed_iff metricName groups remaining variables r :
  Greedy metricName groups remaining variables r →
  ∀ k, k ∈ remaining →
    (r.1 !! k = Some Failed ↔ ¬ supplied groups k) ∧
    (supplied groups k → resolvedIn groups k (r.1 !! k)).
Proof.
  intros HG.
  assert (Hf : ∀ k, k ∈ remaining → r.1 !! k = Some Failed → ¬ supplied groups k).
  { induction HG as [v | rem v Hne Hno | rem v i g r Hne Hw HG IH]; intros k Hk Hfail.
    - by apply not_elem_of_empty in Hk.
    - by eapply noMatch_not_supplied.
    - destruct (decide (k ∈ matching rem g)) as [Hm | Hm].
      + destruct (Greedy_lookup _ _ _ _ _ HG) as (Hout & _).
        rewrite Hout in Hfail by set_solver.
        rewrite union_assigned_lookup, decide_True in Hfail by done.
        unfold Failed in Hfail. injection Hfail. lia.
      + apply IH; [set_solver | done]. }
  intros k Hk. destruct (Greedy_lookup _ _ _ _ _ HG) as (_ & Hin & _).
  destruct (Hin k Hk) as [Hfail | Hres].
  - split; [split; [by apply Hf | done] |]. intros Hs. by destruct (Hf k Hk Hfail).
  - destruct (resolvedIn_supplied _ _ _ Hres) as [Hs Hnf]. split; [| done].
    split; [done | intros Hns; by destruct Hns].
Qed.

Lemma Greedy_error_iff metricName groups remaining variables r :
  Greedy metricName groups remaining variables r →
  (r.2 = None ↔ ∀ k, k ∈ remaining → supplied groups k).
Proof.
  intros HG. destruct (Greedy_lookup _ _ _ _ _ HG) as (_ & _ & Hok & Hfail). split.
  - intros Hnone k Hk. by destruct (resolvedIn_supplied _ _ _ (Hok Hnone k Hk)).
  - intros Hall. destruct (r.2) as [e |] eqn:He; [| done].
    destruct Hfail as (k & Hk & Hf); [done |].
    destruct (Greedy_failed_iff _ _ _ _ _ HG k Hk) as [[Hns _] _].
    by destruct (Hns Hf (Hall k Hk)).
Qed.

(** ** What the step of a definition depends on, and what it leaves alone *)

Lemma getExpressionVariables_other {Expr} (metric : MetricDefinition Expr)
    frame previousTimestamp metadata w l :
  l ≠ Variables metric →
  Maps (getExpressionVariables metric frame previousTimestamp metadata w).1 !! l
  = Maps w !! l.
Proof.
  intros Hl.
  destruct (getExpressionVariables_cases metric frame previousTimestamp metadata w)
    as [(_ & k & ->) | [(_ & _ & ->) | (_ & _ & m' & err & _ & ->)]]; try done.
  simpl. by rewrite lookup_insert_ne.
Qed.

Lemma getExpressionVariables_unsupplied {Expr} (bad : MetricDefinition Expr) frame
    previousTimestamp metadata w k :
  variablesOf w (Variables bad) !! k = Some Unresolved →
  ¬ supplied (EventGroups frame) k →
  ∃ w1 e, getExpressionVariables bad frame previousTimestamp metadata w
          = (w1, Returns (∅, Some e)).
Proof.
  intros Hk Hno.
  destruct (getExpressionVariables_cases bad frame previousTimestamp metadata w)
    as [(_ & k0 & ->) | [(_ & Hnu & _) | (_ & _ & m' & err & HG & ->)]].
  - by eexists _, _.
  - destruct Hnu. by exists k.
  - destruct err as [e |]; [by eexists _, _ |].
    apply Greedy_error_iff in HG. simpl in HG.
    destruct Hno. apply HG; [done |]. apply elem_of_dom. by eexists.
Qed.

Lemma getExpressionVariables_local {Expr} (metric : MetricDefinition Expr) frame
    previousTimestamp metadata w w' :
  variablesOf w' (Variables metric) = variablesOf w (Variables metric) →
  (getExpressionVariables metric frame previousTimestamp metadata w').2
  = (getExpressionVariables metric frame previousTimestamp metadata w).2.
Proof.
  intros Hm. unfold getExpressionVariables. rewrite Hm.
  destruct (checkVariables _ false) as [[|] | e]; [| by simpl; rewrite Hm | done].
  unfold loadMetricBestGroups. rewrite Hm.
  destruct (resolveLoop _ _ _ _ _) as [[[v err] n] |]; simpl.
  - destruct err; [done |].
    by rewrite !variablesOf_setVariables, !decide_True.
  - by rewrite Hm.
Qed.

Section Steps.
Context {Expr : Type} `{!Collaborators Expr}.

Lemma evaluateExpression_body (metric : MetricDefinition Expr) variables functions w :
  evaluateExpression metric variables functions w
  = (match EvaluatorExpression metric with
     | None => logCompile w (Expression metric)
     | Some _ => w
     end,
     recoverError (evaluateBody metric variables functions)).
Proof.
  unfold evaluateExpression, evaluateBody.
  destruct (EvaluatorExpression metric); [done |].
  by destruct (NewEvaluableExpressionWithFunctions _ _) as [[? [?|]] | ?].
Qed.

Lemma evaluateExpression_outcome (metric : MetricDefinition Expr) variables functions
    w w' :
  (evaluateExpression metric variables functions w').2
  = (evaluateExpression metric variables functions w).2.
Proof. by rewrite !evaluateExpression_body. Qed.

Lemma variablesOf_other (metric : MetricDefinition Expr) frame previousTimestamp
    metadata variables functions w l :
  l ≠ Variables metric →
  variablesOf (getExpressionVariables metric frame previousTimestamp metadata w).1 l
  = variablesOf w l ∧
  variablesOf
    (evaluateExpression metric variables functions
       (getExpressionVariables metric frame previousTimestamp metadata w).1).1 l
  = variablesOf w l.
Proof.
  intros Hl. unfold variablesOf.
  by rewrite evaluateExpression_maps, getExpressionVariables_other.
Qed.

(** Of an unresolvable and a valid definition, in either order, the valid
    one is the output. *)
Lemma unresolvable_and_valid (bad good : MetricDefinition Expr) frame functions
    previousTimestamp metadata w w' variables value k definitions metrics err :
  variablesOf w (Variables bad) !! k = Some Unresolved →
  ¬ supplied (EventGroups frame) k →
  getExpressionVariables good frame previousTimestamp metadata w
    = (w', Returns (variables, None)) →
  (evaluateExpression good variables functions w').2 = Returns (VFloat value, None) →
  definitions = [bad; good] ∨ definitions = [good; bad] →
  ∃ w3, processMetrics definitions frame functions previousTimestamp metadata
          metrics err w
        = (w3, Returns ((metrics ++ [{| Metric_Name := Name good;
                                        Metric_Value := value |}])%list, None)).
Proof.
  intros Hk Hno Hgood Hvalue Hdefs.
  assert (Hl : Variables bad ≠ Variables good).
  { intros Heq. rewrite Heq in Hk.
    destruct (getExpressionVariables_unsupplied good frame previousTimestamp
                metadata w k Hk Hno) as (w1 & e & Hbad).
    by rewrite Hbad in Hgood. }
  destruct Hdefs as [-> | ->].
  - destruct (getExpressionVariables_unsupplied bad frame previousTimestamp
                metadata w k Hk Hno) as (w1 & e & Hbad).
    rewrite processMetrics_cons, Hbad, processMetrics_cons.
    pose proof (getExpressionVariables_local good frame previousTimestamp metadata
                  w w1) as Hloc.
    rewrite Hgood in Hloc. simpl in Hloc.
    destruct (getExpressionVariables good frame previousTimestamp metadata w1)
      as [w2 o2]. simpl in Hloc. rewrite Hloc.
    + rewrite (surjective_pairing (evaluateExpression good variables functions w2)).
      rewrite (evaluateExpression_outcome _ _ _ w' w2), Hvalue. by eexists.
    + pose proof (getExpressionVariables_other bad frame previousTimestamp metadata
                    w (Variables good) (not_eq_sym Hl)) as Ho.
      rewrite Hbad in Ho. simpl in Ho. unfold variablesOf. by rewrite Ho.
  - rewrite processMetrics_cons, Hgood.
    rewrite (surjective_pairing (evaluateExpression good variables functions w')).
    rewrite Hvalue, processMetrics_cons.
    set (w2 := (evaluateExpression good variables functions w').1).
    assert (Hk2 : variablesOf w2 (Variables bad) !! k = Some Unresolved).
    { destruct (variablesOf_other good frame previousTimestamp metadata variables
                  functions w (Variables bad) Hl) as [_ Ho].
      rewrite Hgood in Ho. simpl in Ho. subst w2. by rewrite Ho. }
    destruct (getExpressionVariables_unsupplied bad frame previousTimestamp
                metadata w2 k Hk2 Hno) as (w3 & e & Hbad).
    rewrite Hbad. by eexists.
Qed.

(** A panic of the evaluator with a value that is no error passes the
    handler as a panic of the type assertion, and ends the loop. *)
Lemma evaluateExpression_PanicOther (metric : MetricDefinition Expr) variables
    functions v w :
  evaluateBody metric variables functions = Panics (PanicOther v) →
  (evaluateExpression metric variables functions w).2 = Panics interfaceConversion.
Proof. intros H. by rewrite evaluateExpression_body, H. Qed.

Lemma processMetrics_PanicOther (metric : MetricDefinition Expr) rest frame
    functions previousTimestamp metadata variables v metrics err w w1 :
  evaluateBody metric variables functions = Panics (PanicOther v) →
  getExpressionVariables metric frame previousTimestamp metadata w
    = (w1, Returns (variables, None)) →
  (processMetrics (metric :: rest) frame functions previousTimestamp metadata
     metrics err w).2 = Panics interfaceConversion.
Proof.
  intros Hbody Hv. rewrite processMetrics_cons, Hv, evaluateExpression_body, Hbody.
  done.
Qed.
End Steps.

(** ** Examples *)

(** Of two groups with as many matches the earlier one wins, and a group
    with more matches wins over both. *)
Example bestGroup_tie :
  bestGroup {[ "a"; "b"; "c" ]}
    [Sample.group [("a", 1)]; Sample.group [("b", 1)]]
  = (0, 1%nat, {[ "a" ]}) ∧
  bestGroup {[ "a"; "b"; "c" ]}
    [Sample.group [("a", 1)]; Sample.group [("b", 1)];
     Sample.group [("b", 1); ("c", 1); ("d", 1)]]
  = (2, 2%nat, {[ "b"; "c" ]}).
Proof. split; vm_compute; reflexivity. Qed.

(** Three variables over two groups: the larger group is taken first. *)
Example resolveLoop_sample :
  resolveLoop 4 "m"
    [Sample.group [("a", 1)]; Sample.group [("b", 1); ("c", 1)]]
    {[ "a"; "b"; "c" ]} {[ "a" := -1; "b" := -1; "c" := -1 ]}
  = Some ({[ "a" := 0; "b" := 1; "c" := 1 ]}, None, 2%nat).
Proof. vm_compute. reflexivity. Qed.

(** A raw value of 2 000 000 000 at timestamp 1.0 after timestamp 0.0 is a
    rate of 2.0e9, and a residency rate of 5.0e8 on two threads per core
    is corrected to 1.0e9. *)
Example rate_sample :
  rate (Sample.group [("instr", 2000000000)]) "instr" (F64.of_int 1) (F64.of_int 0)
  = F64.of_int 2000000000 ∧
  adjusted Sample.hyperthreaded c6residency (F64.of_int 500000000)
  = F64.of_int 1000000000 ∧
  adjusted Sample.uniprocessor c6residency (F64.of_int 500000000)
  = F64.of_int 500000000 ∧
  adjusted Sample.hyperthreaded "instr" (F64.of_int 500000000)
  = F64.of_int 500000000.
Proof. repeat split; vm_compute; reflexivity. Qed.

(** One call of the pipeline on the first sample: "bad" has no group and
    "faulty" panics in the evaluator; the other three are the output. *)
Example processEvents_sample :
  (processEvents ["sample 1"]
     [Sample.instr; Sample.bad; Sample.residency; Sample.faulty; Sample.one]
     getEvaluatorFunctions (F64.of_int 0) Sample.hyperthreaded Sample.start).2
  = Returns
      ([{| Metric_Name := "instr"; Metric_Value := F64.of_int 2000000000 |};
        {| Metric_Name := "residency"; Metric_Value := F64.of_int 1000000000 |};
        {| Metric_Name := "one"; Metric_Value := F64.of_int 1 |}],
       F64.of_int 1, None).
Proof. vm_compute. reflexivity. Qed.

(** The sample evaluator reads a name in square brackets as a parameter
    and refuses the bare name of the residency counter. *)
Example parameter_sample :
  Sample.parameter ("[" ++ c6residency ++ "]") = Some c6residency ∧
  Sample.parameter "instr" = Some "instr" ∧
  Sample.compile c6residency getEvaluatorFunctions
  = Returns (None, Some (ErrExternal "Invalid token")).
Proof. repeat split; vm_compute; reflexivity. Qed.

(** * The claims of the specification *)

(** C1, as the code has it. The normalizer does not look at the interval:
    neither the world it leaves nor whether it reports an error or panics
    depends on the previous timestamp, and when it reports no error every
    variable is bound to the quotient of its raw value by the interval
    (adjusted as in C7), which is an infinity or a NaN when the interval
    is zero. *)
Theorem interval_is_not_checked {Expr} (metric : MetricDefinition Expr)
    (frame : EventFrame) (previousTimestamp : float64) (metadata : Metadata)
    (w : World) :
  (∀ previous',
     (getExpressionVariables metric frame previous' metadata w).1
     = (getExpressionVariables metric frame previousTimestamp metadata w).1 ∧
     status (getExpressionVariables metric frame previous' metadata w).2
     = status (getExpressionVariables metric frame previousTimestamp metadata w).2) ∧
  (∀ w' variables,
     getExpressionVariables metric frame previousTimestamp metadata w
       = (w', Returns (variables, None)) →
     ∀ k idx, variablesOf w' (Variables metric) !! k = Some idx →
       ∃ group, groupAt frame idx = Some group ∧
         let interval := F64.sub (Timestamp frame) previousTimestamp in
         let r := F64.div (eventValue group k) interval in
         variables !! k = Some (VFloat (adjusted metadata k r)) ∧
         (∀ s, interval = S754_zero s → F64.is_inf r || F64.is_nan r = true)).
Proof.
  split; [apply getExpressionVariables_interval |].
  intros w' variables H k idx Hk.
  pose proof (getExpressionVariables_bindings _ _ _ _ _ _ _ H k) as Hb.
  rewrite Hk in Hb. destruct Hb as (group & Hg & Hv). exists group.
  split; [done |]. cbv zeta. split; [done |].
  intros s ->. apply div_by_zero.
Qed.

(** C1, as the specification has it, fails: with the previous timestamp
    equal to the frame's, the interval is zero, no error is reported and
    the variables are bound to +Inf. *)
Lemma zero_interval_is_not_rejected :
  F64.sub (Timestamp Sample.frame1) (F64.of_int 1) = F64.zero ∧
  (getExpressionVariables Sample.instr Sample.frame1 (F64.of_int 1)
     Sample.uniprocessor Sample.start).2
  = Returns ({[ "instr" := VFloat F64.pinf; "cycles" := VFloat F64.pinf ]}, None).
Proof. split; vm_compute; reflexivity. Qed.

(** C2: the failing input. The events cannot be parsed; with the one
    definition "one" [processEvents] still returns a metric and a nil
    error, and with the one definition "instr" it returns a nil error and
    leaves the variables of "instr" failed. With a definition to process,
    no call returns an error; only with none is the error of the frame
    returned. *)
Theorem frame_error_is_dropped :
  (∀ Expr (C : Collaborators Expr) perfEvents (d : MetricDefinition Expr) rest
     functions previousTimestamp metadata w w' metrics timeStamp err,
     processEvents perfEvents (d :: rest) functions previousTimestamp metadata w
       = (w', Returns (metrics, timeStamp, err)) →
     err = None) ∧
  getEventFrame ["unreadable"]
    = (Sample.noFrame, Some (ErrExternal "unable to parse the events")) ∧
  processEvents ["unreadable"] [Sample.one] getEvaluatorFunctions (F64.of_int 0)
    Sample.uniprocessor Sample.start
  = (logCompile Sample.start "1",
     Returns ([{| Metric_Name := "one"; Metric_Value := F64.of_int 1 |}],
              F64.zero, None)) ∧
  processEvents ["unreadable"] [Sample.instr] getEvaluatorFunctions (F64.of_int 0)
    Sample.uniprocessor Sample.start
  = (setVariables Sample.start 1%positive
       {[ "instr" := Failed; "cycles" := Failed ]},
     Returns ([], F64.zero, None)) ∧
  (processEvents ["unreadable"] [] getEvaluatorFunctions (F64.of_int 0)
     Sample.uniprocessor Sample.start).2
  = Returns ([], F64.zero,
             Some (ErrEventGroups (ErrExternal "unable to parse the events"))).
Proof.
  split; [| repeat split; vm_compute; reflexivity].
  intros Expr C perfEvents d rest functions prev md w w' metrics ts err H.
  unfold processEvents in H. destruct (getEventFrame perfEvents) as [frame e].
  match type of H with context [processMetrics ?a ?b ?c ?d ?e ?f ?g ?h] =>
    destruct (processMetrics a b c d e f g h) as [w1 [[ms e'] | ?]] eqn:Hrun end;
    [| done].
  simplify_eq. by eapply processMetrics_error_dropped.
Qed.

(** C3: the failing input. A definition whose [EvaluatorExpression] is nil
    has its expression compiled by every call of [evaluateExpression]; the
    definitions handed to [processEvents] are never written, so that every
    frame compiles again: after two frames the expression of "instr" has
    been compiled twice. *)
Theorem expression_is_compiled_on_every_frame :
  (∀ Expr (C : Collaborators Expr) (metric : MetricDefinition Expr) variables
     functions w,
     EvaluatorExpression metric = None →
     Compiled (evaluateExpression metric variables functions w).1
     = Expression metric :: Compiled w) ∧
  EvaluatorExpression Sample.instr = None ∧
  Compiled Sample.start = [] ∧
  Compiled Sample.afterFirst = ["instr"] ∧
  Compiled Sample.afterSecond = ["instr"; "instr"].
Proof.
  split; [| repeat split; vm_compute; reflexivity].
  intros Expr C metric variables functions w. apply evaluateExpression_compiles.
Qed.

(** C4. The resolver is the greedy maximum-coverage algorithm: started on
    all the variable names of the metric, [loadMetricBestGroups] computes
    what [Greedy] describes (the earliest group of maximal, nonzero
    intersection takes its matches, until nothing remains or no group
    matches, when all that remains is marked failed and named in the
    error), and nothing else satisfies that description. Every scan ends
    as [scanned] says and does not look past a group that supplies all
    the remaining names, the assignment does not depend on the order in
    which the matched names are enumerated, and in a settled map with an
    unresolved variable all the names are unresolved ones. *)
Theorem resolver_is_greedy {Expr} (metric : MetricDefinition Expr)
    (frame : EventFrame) (w : World) :
  let variables := variablesOf w (Variables metric) in
  let r := loadMetricBestGroups metric frame w in
  Greedy (Name metric) (EventGroups frame) (dom variables) variables
    (variablesOf r.1 (Variables metric), r.2) ∧
  (∀ r', Greedy (Name metric) (EventGroups frame) (dom variables) variables r' →
         r' = (variablesOf r.1 (Variables metric), r.2)) ∧
  (∀ remaining,
     scanned remaining (EventGroups frame) (bestGroup remaining (EventGroups frame))) ∧
  (∀ remaining pre g rest,
     remaining ≠ ∅ → size (matching remaining g) = size remaining →
     bestGroup remaining (pre ++ g :: rest) = bestGroup remaining (pre ++ [g])) ∧
  (∀ matched names idx (m : gmap string Z),
     names ≡ₚ ToSlice matched →
     assignAll names idx m = assignAll (ToSlice matched) idx m ∧
     ∀ k, assignAll names idx m !! k
          = if decide (k ∈ matched) then Some idx else m !! k) ∧
  (settled variables → hasUnresolved variables →
   ∀ k, k ∈ dom variables ↔ variables !! k = Some Unresolved).
Proof.
  intros variables r.
  destruct (loadMetricBestGroups_Greedy metric frame w) as (m' & err & Heq & HG).
  fold variables in HG. subst r. rewrite Heq. simpl.
  rewrite variablesOf_setVariables, decide_True by done.
  split; [done | split; [| split; [| split; [| split]]]].
  - intros r' HG'. by eapply Greedy_deterministic.
  - intros remaining. apply bestGroup_scanned.
  - intros remaining pre g rest Hne Hfull. apply scanGroups_short_circuit; [| done].
    assert (size remaining ≠ 0%nat) by by rewrite size_zero_empty. lia.
  - intros matched names idx m Hp. split; [by apply assignAll_order |].
    intros k. rewrite (assignAll_order _ _ _ _ Hp), assignAll_union.
    apply union_assigned_lookup.
  - intros [Hall | Hnone] [k0 Hk0] k; [| by destruct (Hnone k0 _ Hk0)].
    rewrite elem_of_dom. split; [intros [v Hv]; by rewrite Hv, (Hall k v Hv) |].
    intros ->. by eexists.
Qed.

(** C5. Along any sequence of [processEvents] calls on definitions that
    start fully unresolved and have distinct names: between two points of
    the run the state of a variable stays as it is or goes from unresolved
    to failed or to a group, and never back; a definition that has a
    failed variable appears in the output of no later call; and the
    assignment of a definition whose variables are all resolved is not
    changed by any later call, whatever the frames hold. *)
Theorem resolution_state_is_final {Expr} `{!Collaborators Expr}
    (metricDefinitions : list (MetricDefinition Expr))
    (w0 w1 w2 : World) :
  (∀ d, d ∈ metricDefinitions → allUnresolved (variablesOf w0 (Variables d))) →
  NoDup (Name <$> metricDefinitions) →
  later metricDefinitions w0 w1 →
  later metricDefinitions w1 w2 →
  ∀ d, d ∈ metricDefinitions →
    (∀ k, transition (variablesOf w1 (Variables d) !! k)
                     (variablesOf w2 (Variables d) !! k)) ∧
    (hasFailed (variablesOf w1 (Variables d)) →
     ∀ perfEvents functions previousTimestamp metadata w3 metrics timeStamp err,
       processEvents perfEvents metricDefinitions functions previousTimestamp
         metadata w2 = (w3, Returns (metrics, timeStamp, err)) →
       Name d ∉ Metric_Name <$> metrics) ∧
    (allResolved (variablesOf w1 (Variables d)) →
     variablesOf w2 (Variables d) = variablesOf w1 (Variables d)).
Proof.
  intros Hinit Hnd H01 H12 d Hd.
  pose proof (later_advances _ _ _ H01 (Variables d)) as Ha01.
  pose proof (later_advances _ _ _ H12) as Ha12.
  split; [| split].
  - intros k. apply advance_transition; [done |].
    eapply advance_settled; [done |]. left. by apply Hinit.
  - intros Hf perfEvents functions prev md w3 metrics ts err Hcall Hname.
    apply list_elem_of_fmap in Hname as (x & Hx & Hin).
    unfold processEvents in Hcall.
    destruct (getEventFrame perfEvents) as [frame e].
    match type of Hcall with context [processMetrics ?a ?b ?c ?d ?e ?f ?g ?h] =>
      destruct (processMetrics a b c d e f g h) as [w' [[ms e'] | ?]] eqn:Hrun end;
      [| done].
    simplify_eq.
    destruct (processMetrics_output _ _ _ _ _ _ _ _ _ _ _ Hrun x Hin)
      as [Hnil | (d' & Hd' & Hname & Hnf)]; [by apply elem_of_nil in Hnil |].
    assert (d = d') as <- by (eapply Name_unique; eauto; congruence).
    apply Hnf. by eapply advances_hasFailed.
  - intros Hall. by apply advance_resolved.
Qed.

(** Two calls on the samples: "missing" fails on the first and the metric
    "bad" stays out of the output of every call after the second. *)
Lemma resolution_state_is_final_sample :
  (∀ k, transition (variablesOf Sample.afterFirst (Variables Sample.bad) !! k)
                   (variablesOf Sample.afterSecond (Variables Sample.bad) !! k)) ∧
  (hasFailed (variablesOf Sample.afterFirst (Variables Sample.bad)) →
   ∀ perfEvents functions previousTimestamp metadata w3 metrics timeStamp err,
     processEvents perfEvents Sample.definitions functions previousTimestamp
       metadata Sample.afterSecond = (w3, Returns (metrics, timeStamp, err)) →
     Name Sample.bad ∉ Metric_Name <$> metrics) ∧
  (allResolved (variablesOf Sample.afterFirst (Variables Sample.bad)) →
   variablesOf Sample.afterSecond (Variables Sample.bad)
   = variablesOf Sample.afterFirst (Variables Sample.bad)).
Proof.
  apply (resolution_state_is_final Sample.definitions Sample.start
           Sample.afterFirst Sample.afterSecond).
  - intros d [-> | [-> | Hd%elem_of_nil]%elem_of_cons]%elem_of_cons; [| | done];
      apply (bool_decide_unpack _); vm_compute; exact I.
  - apply (bool_decide_unpack _). vm_compute. exact I.
  - eapply later_call; [apply surjective_pairing | apply later_now].
  - eapply later_call; [apply surjective_pairing | apply later_now].
  - right. left.
Defined.

(** C6: the handler misses a case. An error that the evaluator returns,
    and a panic of it that carries an error value, from compiling or
    from evaluating, come out of [evaluateExpression] as a returned
    error, and the loop of [processEvents] goes on with the remaining
    definitions, the metrics gathered so far unchanged; and of two
    definitions, one with an unresolved variable that no group of the
    frame supplies and one that evaluates to a number, in either order,
    exactly the second is the output, with a nil error. But a panic of
    the evaluator with a value that is no error is not intercepted: the
    handler's [errx.(error)] panics in its turn, and [processEvents]
    panics with it. The failing input: a function table whose [max]
    panics with a string, on the definitions "faulty", which calls [max],
    and "one"; with the function table of the engine, whose [max] panics
    with an error value there, "one" is the output. *)
Theorem evaluator_fault_isolation_misses_a_case :
  (∀ Expr (C : Collaborators Expr) (functions : gmap string ExpressionFunction)
     (frame : EventFrame) (previousTimestamp : float64) (metadata : Metadata),
     (∀ (metricDef : MetricDefinition Expr) variables e w,
        Fault metricDef variables functions e →
        ∃ result, (evaluateExpression metricDef variables functions w).2
                  = Returns (result, Some e)) ∧
     (∀ (metricDef : MetricDefinition Expr) rest variables e metrics err w w1,
        getExpressionVariables metricDef frame previousTimestamp metadata w
          = (w1, Returns (variables, None)) →
        Fault metricDef variables functions e →
        processMetrics (metricDef :: rest) frame functions previousTimestamp
          metadata metrics err w
        = processMetrics rest frame functions previousTimestamp metadata metrics
            None (evaluateExpression metricDef variables functions w1).1) ∧
     (∀ (bad good : MetricDefinition Expr) definitions perfEvents err w w'
        variables value k,
        getEventFrame perfEvents = (frame, err) →
        variablesOf w (Variables bad) !! k = Some Unresolved →
        ¬ supplied (EventGroups frame) k →
        getExpressionVariables good frame previousTimestamp metadata w
          = (w', Returns (variables, None)) →
        (evaluateExpression good variables functions w').2
          = Returns (VFloat value, None) →
        definitions = [bad; good] ∨ definitions = [good; bad] →
        ∃ w3, processEvents perfEvents definitions functions previousTimestamp
                metadata w
              = (w3, Returns ([{| Metric_Name := Name good;
                                  Metric_Value := value |}],
                              Timestamp frame, None))) ∧
     (∀ (metricDef : MetricDefinition Expr) rest variables v perfEvents err w w1,
        evaluateBody metricDef variables functions = Panics (PanicOther v) →
        (evaluateExpression metricDef variables functions w1).2
          = Panics interfaceConversion ∧
        (getEventFrame perfEvents = (frame, err) →
         getExpressionVariables metricDef frame previousTimestamp metadata w
           = (w1, Returns (variables, None)) →
         (processEvents perfEvents (metricDef :: rest) functions previousTimestamp
            metadata w).2 = Panics interfaceConversion))) ∧
  evaluateBody Sample.faulty ∅ Fixture.panicking
    = Panics (PanicOther (VString "unsupported")) ∧
  (processEvents ["sample 1"] [Sample.faulty; Sample.one] Fixture.panicking
     (F64.of_int 0) Sample.uniprocessor Sample.start).2
    = Panics interfaceConversion ∧
  (processEvents ["sample 1"] [Sample.faulty; Sample.one] getEvaluatorFunctions
     (F64.of_int 0) Sample.uniprocessor Sample.start).2
    = Returns ([{| Metric_Name := "one"; Metric_Value := F64.of_int 1 |}],
               F64.of_int 1, None).
Proof.
  split; [| repeat split; vm_compute; reflexivity].
  intros Expr C functions frame previousTimestamp metadata.
  split; [| split; [| split]].
  - intros metricDef variables e w HF. by apply evaluateExpression_Fault.
  - intros metricDef rest variables e metrics err w w1 Hv HF.
    rewrite processMetrics_cons, Hv.
    destruct (evaluateExpression_Fault metricDef variables functions e w1 HF)
      as [result Hr].
    destruct (evaluateExpression metricDef variables functions w1) as [w2 o].
    simpl in Hr. by rewrite Hr.
  - intros bad good definitions perfEvents err w w' variables value k
      Hframe Hk Hno Hgood Hvalue Hdefs.
    destruct (unresolvable_and_valid bad good frame functions previousTimestamp
                metadata w w' variables value k definitions []
                (match err with Some e => Some (ErrEventGroups e) | None => None end)
                Hk Hno Hgood Hvalue Hdefs) as [w3 Hrun].
    exists w3. unfold processEvents. by rewrite Hframe, Hrun.
  - intros metricDef rest variables v perfEvents err w w1 Hbody.
    split; [by eapply evaluateExpression_PanicOther |].
    intros Hframe Hv. unfold processEvents. rewrite Hframe.
    pose proof (processMetrics_PanicOther metricDef rest frame functions
                  previousTimestamp metadata variables v []
                  (match err with Some e => Some (ErrEventGroups e) | None => None end)
                  w w1 Hbody Hv) as Hp.
    destruct (processMetrics _ _ _ _ _ _ _ _) as [w2 o]. simpl in Hp. by subst o.
Qed.

(** On the first sample: a call of [max] with one argument panics with an
    error value, which [evaluateExpression] returns as an error; of
    "partly", which has a variable that no group supplies, and "instr",
    in either order, "instr" is the output; and a [max] that panics with
    a string makes the call panic. *)
Lemma evaluator_fault_isolation_sample :
  (∃ result,
     (evaluateExpression Sample.faulty ∅ getEvaluatorFunctions Sample.start).2
     = Returns (result, Some (ErrRuntime "index out of range"))) ∧
  (∃ w3, processEvents ["sample 1"] [Fixture.partly; Sample.instr]
           getEvaluatorFunctions (F64.of_int 0) Sample.uniprocessor Fixture.begin
         = (w3, Returns ([{| Metric_Name := "instr";
                             Metric_Value := F64.of_int 2000000000 |}],
                         F64.of_int 1, None))) ∧
  (∃ w3, processEvents ["sample 1"] [Sample.instr; Fixture.partly]
           getEvaluatorFunctions (F64.of_int 0) Sample.uniprocessor Fixture.begin
         = (w3, Returns ([{| Metric_Name := "instr";
                             Metric_Value := F64.of_int 2000000000 |}],
                         F64.of_int 1, None))) ∧
  (processEvents ["sample 1"] [Sample.faulty; Sample.one] Fixture.panicking
     (F64.of_int 0) Sample.uniprocessor Sample.start).2
  = Panics interfaceConversion.
Proof.
  destruct evaluator_fault_isolation_misses_a_case as [Hgen _].
  destruct (Hgen Sample.Expr Sample.collaborators getEvaluatorFunctions
              Sample.frame1 (F64.of_int 0) Sample.uniprocessor)
    as (Herror & _ & Hvalid & _).
  destruct (Hgen Sample.Expr Sample.collaborators Fixture.panicking
              Sample.frame1 (F64.of_int 0) Sample.uniprocessor)
    as (_ & _ & _ & Hpanic).
  assert (Hno : ¬ supplied (EventGroups Sample.frame1) "missing").
  { intros (i & g & Hi & Hg). unfold groupEventNames in Hg.
    apply elem_of_dom in Hg as [x Hx]. revert Hx.
    destruct i as [| [| i]]; simpl in Hi; [| | done]; simplify_eq;
      by vm_compute. }
  split; [| split; [| split]].
  - apply Herror.
    apply (Fault_evaluate_panic _ _ _ ("max(1)", getEvaluatorFunctions)).
    + right. split; reflexivity.
    + reflexivity.
  - apply (Hvalid Fixture.partly Sample.instr _ ["sample 1"] None Fixture.begin
             (getExpressionVariables Sample.instr Sample.frame1 (F64.of_int 0)
                Sample.uniprocessor Fixture.begin).1
             {[ "instr" := VFloat (F64.of_int 2000000000);
                "cycles" := VFloat (F64.of_int 1000000000) ]}
             (F64.of_int 2000000000) "missing");
      [reflexivity | vm_compute; reflexivity | exact Hno | vm_compute; reflexivity
      | vm_compute; reflexivity | by left].
  - apply (Hvalid Fixture.partly Sample.instr _ ["sample 1"] None Fixture.begin
             (getExpressionVariables Sample.instr Sample.frame1 (F64.of_int 0)
                Sample.uniprocessor Fixture.begin).1
             {[ "instr" := VFloat (F64.of_int 2000000000);
                "cycles" := VFloat (F64.of_int 1000000000) ]}
             (F64.of_int 2000000000) "missing");
      [reflexivity | vm_compute; reflexivity | exact Hno | vm_compute; reflexivity
      | vm_compute; reflexivity | by right].
  - apply (Hpanic Sample.faulty [Sample.one] ∅ (VString "unsupported")
             ["sample 1"] None Sample.start Sample.start);
      [vm_compute; reflexivity | reflexivity | vm_compute; reflexivity].
Defined.

(** C7. Every binding of the normalizer is the rate of its variable,
    multiplied by [ThreadsPerCore] exactly when [ThreadsPerCore] exceeds 1
    and the variable is "cstate_core/c6-residency/"; with one thread per
    core, or for any other name, it is the rate itself. *)
Theorem hyperthreading_correction {Expr} (metric : MetricDefinition Expr)
    (frame : EventFrame) (previousTimestamp : float64) (metadata : Metadata)
    (w w' : World) (variables : gmap string Value) :
  getExpressionVariables metric frame previousTimestamp metadata w
    = (w', Returns (variables, None)) →
  ∀ k idx, variablesOf w' (Variables metric) !! k = Some idx →
    ∃ group, groupAt frame idx = Some group ∧
      let r := rate group k (Timestamp frame) previousTimestamp in
      (1 < ThreadsPerCore metadata ∧ k = "cstate_core/c6-residency/" →
       variables !! k
       = Some (VFloat (F64.mul r (F64.of_int (ThreadsPerCore metadata))))) ∧
      (ThreadsPerCore metadata <= 1 ∨ k ≠ "cstate_core/c6-residency/" →
       variables !! k = Some (VFloat r)).
Proof.
  intros H k idx Hk.
  pose proof (getExpressionVariables_bindings _ _ _ _ _ _ _ H k) as Hb.
  rewrite Hk in Hb. destruct Hb as (group & Hg & Hv). exists group.
  split; [done |]. cbv zeta. unfold normalized, adjusted in Hv. split.
  - intros Hc. by rewrite decide_True in Hv.
  - intros Hc. rewrite decide_False in Hv; [done |].
    intros [Hlt Hname]. destruct Hc as [Hle | Hne]; [lia | done].
Qed.

(** With two threads per core a residency rate of 5.0e8 becomes 1.0e9. *)
Lemma hyperthreading_correction_sample :
  ∃ group, groupAt Sample.frame1 1 = Some group ∧
    let r := rate group c6residency (Timestamp Sample.frame1) (F64.of_int 0) in
    (1 < ThreadsPerCore Sample.hyperthreaded
     ∧ c6residency = "cstate_core/c6-residency/" →
     ({[ c6residency := VFloat (F64.of_int 1000000000) ]} : gmap string Value)
       !! c6residency
     = Some (VFloat (F64.mul r (F64.of_int (ThreadsPerCore Sample.hyperthreaded))))) ∧
    (ThreadsPerCore Sample.hyperthreaded <= 1
     ∨ c6residency ≠ "cstate_core/c6-residency/" →
     ({[ c6residency := VFloat (F64.of_int 1000000000) ]} : gmap string Value)
       !! c6residency
     = Some (VFloat r)).
Proof.
  apply (hyperthreading_correction Sample.residency Sample.frame1 (F64.of_int 0)
           Sample.hyperthreaded Sample.start
           (getExpressionVariables Sample.residency Sample.frame1 (F64.of_int 0)
              Sample.hyperthreaded Sample.start).1
           {[ c6residency := VFloat (F64.of_int 1000000000) ]}).
  - vm_compute. reflexivity.
  - vm_compute. reflexivity.
Defined.

(** C8, as the code has it. When every variable is assigned a group of the
    frame, the normalizer reports no error, whatever the groups hold: a
    variable without a raw value in its group is bound to the quotient of
    0 by the interval (adjusted as in C7). *)
Theorem missing_raw_value_reads_as_zero {Expr} (metric : MetricDefinition Expr)
    (frame : EventFrame) (previousTimestamp : float64) (metadata : Metadata)
    (w : World) :
  map_Forall (λ _ idx, is_Some (groupAt frame idx))
    (variablesOf w (Variables metric)) →
  ∃ variables,
    getExpressionVariables metric frame previousTimestamp metadata w
      = (w, Returns (variables, None)) ∧
    ∀ k idx group,
      variablesOf w (Variables metric) !! k = Some idx →
      groupAt frame idx = Some group →
      EventValues group !! k = None →
      variables !! k
      = Some (VFloat (adjusted metadata k
                        (F64.div F64.zero
                           (F64.sub (Timestamp frame) previousTimestamp)))).
Proof.
  intros Hall.
  destruct (getExpressionVariables_in_range metric frame previousTimestamp
              metadata w Hall) as [variables H].
  exists variables. split; [done |]. intros k idx group Hk Hg Hnone.
  pose proof (getExpressionVariables_bindings _ _ _ _ _ _ _ H k) as Hb.
  rewrite Hk in Hb. destruct Hb as (group' & Hg' & ->). simplify_eq.
  unfold normalized, rate, eventValue. by rewrite Hnone.
Qed.

(** The second sample lacks "instr" in the group that "instr" was
    assigned on the first: the metric's variable is bound to 0. *)
Lemma missing_raw_value_reads_as_zero_sample :
  ∃ variables,
    getExpressionVariables Sample.instr Sample.frame2 (F64.of_int 1)
      Sample.uniprocessor Sample.resolved
      = (Sample.resolved, Returns (variables, None)) ∧
    ∀ k idx group,
      variablesOf Sample.resolved (Variables Sample.instr) !! k = Some idx →
      groupAt Sample.frame2 idx = Some group →
      EventValues group !! k = None →
      variables !! k
      = Some (VFloat (adjusted Sample.uniprocessor k
                        (F64.div F64.zero
                           (F64.sub (Timestamp Sample.frame2) (F64.of_int 1))))).
Proof.
  apply (missing_raw_value_reads_as_zero Sample.instr Sample.frame2 (F64.of_int 1)
           Sample.uniprocessor Sample.resolved).
  apply (bool_decide_unpack _). vm_compute. exact I.
Defined.

(** C8, as the specification has it, fails: "instr" is assigned group 0,
    group 0 of the second sample has no value for it, and the normalizer
    reports no error and binds "instr" to 0. *)
Lemma missing_raw_value_is_not_reported :
  variablesOf Sample.resolved (Variables Sample.instr) !! "instr" = Some 0 ∧
  (∃ group, groupAt Sample.frame2 0 = Some group ∧
            EventValues group !! "instr" = None) ∧
  (getExpressionVariables Sample.instr Sample.frame2 (F64.of_int 1)
     Sample.uniprocessor Sample.resolved).2
  = Returns ({[ "instr" := VFloat F64.zero;
                "cycles" := VFloat (F64.of_int 1000000000) ]}, None).
Proof.
  split; [vm_compute; reflexivity | split; [| vm_compute; reflexivity]].
  eexists. split; vm_compute; reflexivity.
Qed.

(** C9. [max] and [min] take two arguments, integers or real numbers, and
    return the float64 that is the larger, respectively the smaller, of
    the two (an integer counts as its conversion to float64), with a nil
    error; max(3, 7) is 7.0 and min(3, 7) is 3.0, for integers and for
    reals. *)
Theorem max_min_functions (a b : Value) :
  numeric a → numeric b →
  ∃ fmax fmin larger smaller,
    getEvaluatorFunctions !! "max" = Some fmax ∧
    getEvaluatorFunctions !! "min" = Some fmin ∧
    fmax [a; b] = Returns (VFloat larger, None) ∧
    fmin [a; b] = Returns (VFloat smaller, None) ∧
    (larger = asFloat64 a ∨ larger = asFloat64 b) ∧
    F64.leb (asFloat64 a) larger = true ∧ F64.leb (asFloat64 b) larger = true ∧
    (smaller = asFloat64 a ∨ smaller = asFloat64 b) ∧
    F64.leb smaller (asFloat64 a) = true ∧ F64.leb smaller (asFloat64 b) = true ∧
    fmax [VInt 3; VInt 7] = Returns (VFloat (F64.of_int 7), None) ∧
    fmin [VInt 3; VInt 7] = Returns (VFloat (F64.of_int 3), None) ∧
    fmax [VFloat (F64.of_int 3); VFloat (F64.of_int 7)]
      = Returns (VFloat (F64.of_int 7), None) ∧
    fmin [VFloat (F64.of_int 3); VFloat (F64.of_int 7)]
      = Returns (VFloat (F64.of_int 3), None).
Proof.
  intros Ha%asFloat64_numeric Hb%asFloat64_numeric.
  exists (binaryFunction F64.max), (binaryFunction F64.min),
    (F64.max (asFloat64 a) (asFloat64 b)), (F64.min (asFloat64 a) (asFloat64 b)).
  destruct (max_larger _ _ Ha Hb) as (? & ? & ?).
  destruct (min_smaller _ _ Ha Hb) as (? & ? & ?).
  repeat split; try done.
Qed.

(** The functions at an integer and a real argument. *)
Lemma max_min_functions_sample :
  ∃ fmax fmin larger smaller,
    getEvaluatorFunctions !! "max" = Some fmax ∧
    getEvaluatorFunctions !! "min" = Some fmin ∧
    fmax [VInt 3; VFloat (F64.of_int 7)] = Returns (VFloat larger, None) ∧
    fmin [VInt 3; VFloat (F64.of_int 7)] = Returns (VFloat smaller, None) ∧
    (larger = asFloat64 (VInt 3) ∨ larger = asFloat64 (VFloat (F64.of_int 7))) ∧
    F64.leb (asFloat64 (VInt 3)) larger = true ∧
    F64.leb (asFloat64 (VFloat (F64.of_int 7))) larger = true ∧
    (smaller = asFloat64 (VInt 3) ∨ smaller = asFloat64 (VFloat (F64.of_int 7))) ∧
    F64.leb smaller (asFloat64 (VInt 3)) = true ∧
    F64.leb smaller (asFloat64 (VFloat (F64.of_int 7))) = true ∧
    fmax [VInt 3; VInt 7] = Returns (VFloat (F64.of_int 7), None) ∧
    fmin [VInt 3; VInt 7] = Returns (VFloat (F64.of_int 3), None) ∧
    fmax [VFloat (F64.of_int 3); VFloat (F64.of_int 7)]
      = Returns (VFloat (F64.of_int 7), None) ∧
    fmin [VFloat (F64.of_int 3); VFloat (F64.of_int 7)]
      = Returns (VFloat (F64.of_int 3), None).
Proof.
  apply (max_min_functions (VInt 3) (VFloat (F64.of_int 7))).
  - exact I.
  - reflexivity.
Defined.

(** C10. The resolver's loop terminates: with more iterations allowed
    than names remain it returns, whatever their number, the same result,
    after at most as many assigning passes as names remained; for the
    metric, as many as it has variables. A scan that finds a group finds
    one with a matched name among the remaining ones, so that strictly
    fewer remain for the next pass. *)
Theorem resolver_terminates {Expr} (metric : MetricDefinition Expr)
    (frame : EventFrame) (w : World) :
  (∀ metricName remaining variables,
     ∃ variables' err passes,
       (∀ fuel, (size remaining < fuel)%nat →
          resolveLoop fuel metricName (EventGroups frame) remaining variables
          = Some (variables', err, passes)) ∧
       (passes ≤ size remaining)%nat) ∧
  (∃ variables' err passes,
     loadMetricBestGroups metric frame w
     = (setVariables w (Variables metric) variables', err) ∧
     resolveLoop (S (size (variablesOf w (Variables metric)))) (Name metric)
       (EventGroups frame) (dom (variablesOf w (Variables metric)))
       (variablesOf w (Variables metric))
     = Some (variables', err, passes) ∧
     (passes ≤ size (variablesOf w (Variables metric)))%nat) ∧
  (∀ remaining bestGroupIdx bestMatches matchedNames,
     bestGroup remaining (EventGroups frame)
     = (bestGroupIdx, bestMatches, matchedNames) →
     bestGroupIdx ≠ -1 →
     matchedNames ≠ ∅ ∧ matchedNames ⊆ remaining ∧
     (size (remaining ∖ matchedNames) < size remaining)%nat).
Proof.
  split; [| split].
  - intros metricName remaining variables.
    destruct (resolveLoop_fuel metricName (EventGroups frame) (S (size remaining))
                remaining variables) as (v & e & n & Hrun & Hn); [lia |].
    exists v, e, n. split; [| done]. intros fuel Hfuel. rewrite <- Hrun.
    apply resolveLoop_enough; lia.
  - set (m := variablesOf w (Variables metric)).
    destruct (resolveLoop_fuel (Name metric) (EventGroups frame) (S (size (dom m)))
                (dom m) m) as (v & e & n & Hrun & Hn); [lia |].
    exists v, e, n. rewrite size_dom in Hrun, Hn.
    split; [| done]. unfold loadMetricBestGroups. fold m. cbv zeta.
    by rewrite size_dom, Hrun.
  - intros remaining idx n matched Heq Hidx.
    destruct (bestGroup_scanned remaining (EventGroups frame))
      as [[Hs _] | (i & g & Hw & Hs)]; rewrite Heq in Hs; simplify_eq.
    destruct (winner_shrinks _ _ _ _ Hw) as [Hne Hlt].
    split; [done | split; [apply matching_subseteq | done]].
Qed.

(** * Further properties of the engine *)

(** ** The outcome of a resolution *)

Lemma Greedy_dom metricName groups remaining (variables : gmap string Z) r :
  Greedy metricName groups remaining variables r →
  remaining ⊆ dom variables → dom r.1 = dom variables.
Proof.
  intros HG Hsub. destruct (Greedy_lookup _ _ _ _ _ HG) as (Hout & Hin & _).
  apply set_eq. intros k. rewrite !elem_of_dom.
  destruct (decide (k ∈ remaining)) as [Hk | Hk]; [| by rewrite Hout].
  split; intros _.
  - apply elem_of_dom. by apply Hsub.
  - destruct (Hin k Hk) as [-> | (i & g & -> & _)]; by eexists.
Qed.

(** X1. After [loadMetricBestGroups] the metric has the same variables; a
    variable is marked failed exactly when no group of the frame has a
    counter of its name, and is otherwise assigned a group that has one;
    the error is nil exactly when every variable is supplied. *)
Theorem resolution_outcome {Expr} (metric : MetricDefinition Expr)
    (frame : EventFrame) (w : World) :
  let m := variablesOf w (Variables metric) in
  let r := loadMetricBestGroups metric frame w in
  let m' := variablesOf r.1 (Variables metric) in
  dom m' = dom m ∧
  (∀ k, k ∈ dom m →
     (m' !! k = Some Failed ↔ ¬ supplied (EventGroups frame) k) ∧
     (supplied (EventGroups frame) k →
      ∃ i g, m' !! k = Some (Z.of_nat i) ∧ EventGroups frame !! i = Some g ∧
             is_Some (EventValues g !! k))) ∧
  (r.2 = None ↔ ∀ k, k ∈ dom m → supplied (EventGroups frame) k).
Proof.
  intros m r m'.
  destruct (loadMetricBestGroups_Greedy metric frame w) as (v & err & Heq & HG).
  fold m in HG. subst m' r. rewrite Heq. simpl.
  rewrite variablesOf_setVariables, decide_True by done.
  split; [by apply (Greedy_dom _ _ _ _ _ HG) | split].
  - intros k Hk. destruct (Greedy_failed_iff _ _ _ _ _ HG k Hk) as [Hiff Hres].
    split; [done |]. intros Hs. destruct (Hres Hs) as (i & g & Hv & Hi & Hg).
    exists i, g. split; [done | split; [done |]]. by apply elem_of_dom.
  - apply (Greedy_error_iff _ _ _ _ _ HG).
Qed.

(** ** A group that supplies every variable *)

Lemma covering_winner remaining groups i g :
  remaining ≠ ∅ → groups !! i = Some g → remaining ⊆ groupEventNames g →
  (∀ j g', groups !! j = Some g' → (j < i)%nat → ¬ remaining ⊆ groupEventNames g') →
  winner remaining groups i g ∧ matching remaining g = remaining.
Proof.
  intros Hne Hi Hsub Hfirst.
  assert (Hm : matching remaining g = remaining) by (unfold matching; set_solver).
  split; [| done]. unfold winner. rewrite Hm. split; [done | split; [| split]].
  - assert (size remaining ≠ 0%nat) by by rewrite size_zero_empty. lia.
  - intros j g' _. apply matching_size.
  - intros j g' Hj Hlt. apply subset_size. unfold matching.
    specialize (Hfirst j g' Hj Hlt). set_solver.
Qed.

(** X2. When some group of the frame has counters for all the variables
    of a metric, [loadMetricBestGroups] assigns every variable the
    earliest such group and returns a nil error. *)
Theorem covering_group_takes_all {Expr} (metric : MetricDefinition Expr)
    (frame : EventFrame) (w : World) (i : nat) (g : EventGroup) :
  variablesOf w (Variables metric) ≠ ∅ →
  EventGroups frame !! i = Some g →
  dom (variablesOf w (Variables metric)) ⊆ groupEventNames g →
  (∀ j g', EventGroups frame !! j = Some g' → (j < i)%nat →
           ¬ dom (variablesOf w (Variables metric)) ⊆ groupEventNames g') →
  loadMetricBestGroups metric frame w
  = (setVariables w (Variables metric)
       ((λ _, Z.of_nat i) <$> variablesOf w (Variables metric)), None).
Proof.
  intros Hne Hi Hsub Hfirst. set (m := variablesOf w (Variables metric)) in *.
  assert (Hdom : dom m ≠ ∅) by by rewrite dom_empty_iff_L.
  destruct (covering_winner (dom m) (EventGroups frame) i g Hdom Hi Hsub Hfirst)
    as [Hw Hm].
  destruct (loadMetricBestGroups_Greedy metric frame w) as (v & err & Heq & HG).
  fold m in HG.
  assert (HG' : Greedy (Name metric) (EventGroups frame) (dom m) m
                  (gset_to_gmap (Z.of_nat i) (dom m) ∪ m, None)).
  { apply (Greedy_assign _ _ _ _ i g); [done | done |]. rewrite Hm.
    replace (dom m ∖ dom m) with (∅ : gset string) by set_solver. constructor. }
  pose proof (Greedy_deterministic _ _ _ _ _ _ HG HG') as Hr. simplify_eq.
  rewrite Heq. do 2 f_equal. apply map_eq. intros k.
  rewrite union_assigned_lookup, lookup_fmap.
  case_decide as Hk.
  - apply elem_of_dom in Hk as [x ->]. done.
  - apply not_elem_of_dom in Hk. by rewrite Hk.
Qed.

Lemma covering_group_takes_all_sample :
  loadMetricBestGroups Sample.instr Sample.frame1 Sample.start
  = (setVariables Sample.start (Variables Sample.instr)
       ((λ _, Z.of_nat 0) <$> variablesOf Sample.start (Variables Sample.instr)),
     None).
Proof.
  apply (covering_group_takes_all Sample.instr Sample.frame1 Sample.start 0
           (Sample.group [("instr", 2000000000); ("cycles", 1000000000)])).
  - apply (bool_decide_unpack _). vm_compute. exact I.
  - reflexivity.
  - apply (bool_decide_unpack _). vm_compute. exact I.
  - intros j g' _ Hlt. lia.
Defined.

(** ** The states recorded before a resolution *)

Lemma Greedy_names metricName groups remaining variables r :
  Greedy metricName groups remaining variables r →
  ∀ variables' r', Greedy metricName groups remaining variables' r' →
  r.2 = r'.2 ∧ ∀ k, k ∈ remaining → r.1 !! k = r'.1 !! k.
Proof.
  induction 1 as [v | rem v Hne Hno | rem v i g r Hne Hw HG IH];
    intros v' r' HG'; inversion HG'; subst; simpl.
  - split; [done | intros k Hk; by apply not_elem_of_empty in Hk].
  - done.
  - done.
  - done.
  - split; [done |]. intros k Hk. by rewrite !union_assigned_lookup, !decide_True.
  - by destruct (winner_noMatch _ _ _ _ ltac:(eassumption) Hno).
  - done.
  - by destruct (winner_noMatch _ _ _ _ Hw ltac:(eassumption)).
  - match goal with Hw' : winner _ _ ?i' ?g' |- _ =>
      destruct (winner_unique _ _ _ _ _ _ Hw Hw') as [<- <-] end.
    match goal with H' : Greedy _ _ (rem ∖ _) _ r' |- _ =>
      destruct (IH _ _ H') as [He Hk];
      destruct (Greedy_lookup _ _ _ _ _ H') as (Hout' & _) end.
    destruct (Greedy_lookup _ _ _ _ _ HG) as (Hout & _).
    split; [done |]. intros k Hin.
    destruct (decide (k ∈ matching rem g)) as [Hm | Hm]; [| apply Hk; set_solver].
    rewrite Hout, Hout' by set_solver.
    by rewrite !union_assigned_lookup, !decide_True.
Qed.

(** X3. [loadMetricBestGroups] does not read the states recorded before:
    in two worlds where the metric has the same variable names it leaves
    the same assignment and returns the same error, whatever states
    (unresolved, failed, or a group) the variables had. *)
Theorem resolution_ignores_states {Expr} (metric : MetricDefinition Expr)
    (frame : EventFrame) (w1 w2 : World) :
  dom (variablesOf w1 (Variables metric)) = dom (variablesOf w2 (Variables metric)) →
  variablesOf (loadMetricBestGroups metric frame w1).1 (Variables metric)
  = variablesOf (loadMetricBestGroups metric frame w2).1 (Variables metric) ∧
  (loadMetricBestGroups metric frame w1).2 = (loadMetricBestGroups metric frame w2).2.
Proof.
  intros Hdom.
  destruct (loadMetricBestGroups_Greedy metric frame w1) as (v1 & e1 & -> & HG1).
  destruct (loadMetricBestGroups_Greedy metric frame w2) as (v2 & e2 & -> & HG2).
  simpl. rewrite !variablesOf_setVariables, !decide_True by done.
  rewrite Hdom in HG1.
  destruct (Greedy_names _ _ _ _ _ HG1 _ _ HG2) as [He Hk]. simpl in *.
  split; [| done]. apply map_eq. intros k.
  destruct (decide (k ∈ dom (variablesOf w2 (Variables metric)))) as [Hin | Hin];
    [by apply Hk |].
  destruct (Greedy_lookup _ _ _ _ _ HG1) as (Hout1 & _).
  destruct (Greedy_lookup _ _ _ _ _ HG2) as (Hout2 & _).
  simpl in *. rewrite Hout1, Hout2 by done.
  rewrite <- Hdom in Hin at 1.
  apply not_elem_of_dom in Hin. rewrite Hin. symmetry. apply not_elem_of_dom.
  rewrite <- Hdom. by apply not_elem_of_dom.
Qed.

Lemma resolution_ignores_states_sample :
  variablesOf (loadMetricBestGroups Sample.instr Sample.frame1 Sample.start).1
    (Variables Sample.instr)
  = variablesOf (loadMetricBestGroups Sample.instr Sample.frame1 Fixture.failed).1
      (Variables Sample.instr) ∧
  (loadMetricBestGroups Sample.instr Sample.frame1 Sample.start).2
  = (loadMetricBestGroups Sample.instr Sample.frame1 Fixture.failed).2.
Proof.
  apply (resolution_ignores_states Sample.instr Sample.frame1 Sample.start
           Fixture.failed).
  vm_compute. reflexivity.
Defined.

(** ** A variable that failed before *)

Lemma getExpressionVariables_failed {Expr} (metric : MetricDefinition Expr)
    frame previousTimestamp metadata w :
  hasFailed (variablesOf w (Variables metric)) →
  ∃ k, variablesOf w (Variables metric) !! k = Some Failed ∧
       getExpressionVariables metric frame previousTimestamp metadata w
       = (w, Returns (∅, Some (ErrPreviouslyFailed k))).
Proof.
  intros Hf. unfold getExpressionVariables.
  pose proof (checkVariables_map (variablesOf w (Variables metric))) as Hc.
  destruct (checkVariables _ false) as [b | e] eqn:H; [by destruct Hc |].
  apply checkVariables_failed in H as (k & Hk & ->).
  exists k. split; [by apply elem_of_map_to_list | done].
Qed.

(** X4. A metric with a variable that failed before is not tried again:
    whatever the frame, the timestamps and the metadata,
    [getExpressionVariables] returns the error of a failed variable and
    no bindings, and leaves the world as it is. *)
Theorem failed_metric_is_not_retried {Expr} (metric : MetricDefinition Expr)
    (w : World) :
  hasFailed (variablesOf w (Variables metric)) →
  ∀ frame previousTimestamp metadata,
    ∃ k, variablesOf w (Variables metric) !! k = Some Failed ∧
         getExpressionVariables metric frame previousTimestamp metadata w
         = (w, Returns (∅, Some (ErrPreviouslyFailed k))).
Proof. intros Hf frame prev md. by apply getExpressionVariables_failed. Qed.

(** The first sample has the counters of "instr", yet the failed metric
    stays failed. *)
Lemma failed_metric_is_not_retried_sample :
  ∃ k, variablesOf Fixture.failed (Variables Sample.instr) !! k = Some Failed ∧
       getExpressionVariables Sample.instr Sample.frame1 (F64.of_int 0)
         Sample.uniprocessor Fixture.failed
       = (Fixture.failed, Returns (∅, Some (ErrPreviouslyFailed k))).
Proof.
  apply (failed_metric_is_not_retried Sample.instr Fixture.failed).
  exists "instr". vm_compute. reflexivity.
Defined.

(** ** A group index beyond the groups of the frame *)

Lemma setVariableValues_out_of_range frame previousTimestamp metadata entries :
  ∀ acc err k idx,
  (k, idx) ∈ entries → groupAt frame idx = None →
  setVariableValues entries frame previousTimestamp metadata acc err
  = Panics indexOutOfRange.
Proof.
  induction entries as [| [k0 idx0] entries IH]; intros acc err k idx Hin Hnone;
    [by apply elem_of_nil in Hin |].
  simpl. destruct (groupAt frame idx0) as [group |] eqn:Hg; [| done].
  apply elem_of_cons in Hin as [Heq | Hin]; [simplify_eq |]. by eapply IH.
Qed.

Lemma allResolved_quiet (m : gmap string Z) :
  allResolved m → ¬ hasFailed m ∧ ¬ hasUnresolved m.
Proof.
  intros Hall. split; intros [k Hk]; specialize (Hall k _ Hk);
    unfold ResolvedToGroup, Failed, Unresolved in Hall; lia.
Qed.

Lemma getExpressionVariables_out_of_range {Expr} (metric : MetricDefinition Expr)
    frame previousTimestamp metadata w k idx :
  allResolved (variablesOf w (Variables metric)) →
  variablesOf w (Variables metric) !! k = Some idx →
  groupAt frame idx = None →
  getExpressionVariables metric frame previousTimestamp metadata w
  = (w, Panics indexOutOfRange).
Proof.
  intros Hall Hk Hnone. destruct (allResolved_quiet _ Hall) as [Hnf Hnu].
  destruct (getExpressionVariables_cases metric frame previousTimestamp metadata w)
    as [(Hf & _) | [(_ & _ & ->) | (_ & Hu & _)]]; [done | | done].
  f_equal. eapply setVariableValues_out_of_range; [| done].
  by apply elem_of_map_to_list.
Qed.

Section OutOfRange.
Context {Expr : Type} `{!Collaborators Expr}.

Lemma processMetrics_out_of_range frame functions previousTimestamp metadata
    (d : MetricDefinition Expr) k idx :
  groupAt frame idx = None →
  ∀ metricDefinitions metrics err w,
  d ∈ metricDefinitions →
  allResolved (variablesOf w (Variables d)) →
  variablesOf w (Variables d) !! k = Some idx →
  ∃ p, (processMetrics metricDefinitions frame functions previousTimestamp
          metadata metrics err w).2 = Panics p.
Proof.
  intros Hnone.
  induction metricDefinitions as [| d0 rest IH]; intros metrics err w Hd Hall Hk;
    [by apply elem_of_nil in Hd |].
  rewrite processMetrics_cons.
  apply elem_of_cons in Hd as [<- | Hd].
  { rewrite (getExpressionVariables_out_of_range d frame previousTimestamp
               metadata w k idx Hall Hk Hnone). by eexists. }
  destruct (getExpressionVariables d0 frame previousTimestamp metadata w)
    as [w1 o1] eqn:H1.
  apply getExpressionVariables_advances in H1 as [H1 _].
  assert (Hkeep : ∀ w', advances w w' →
            allResolved (variablesOf w' (Variables d)) ∧
            variablesOf w' (Variables d) !! k = Some idx).
  { intros w' Ha. by rewrite (advance_resolved _ _ (Ha (Variables d)) Hall). }
  destruct o1 as [[variables [e |]] | p]; [| | by eexists].
  { destruct (Hkeep w1 H1). by apply IH. }
  pose proof (evaluateExpression_advances d0 variables functions w1) as H2.
  destruct (evaluateExpression d0 variables functions w1) as [w2 o2].
  simpl in H2. destruct (Hkeep w2 (advances_trans _ _ _ H1 H2)).
  destruct o2 as [[result [e |]] | p]; [by apply IH | | by eexists].
  destruct result; try by eexists. by apply IH.
Qed.
End OutOfRange.

(** X5. When every variable of a metric is assigned a group and one of
    the assigned indexes is not below the number of groups of the frame,
    [getExpressionVariables] panics with an index out of range, and so
    does every call of [processEvents], on a frame with these groups,
    whose definitions include the metric. *)
Theorem smaller_frame_panics {Expr} `{!Collaborators Expr}
    (metric : MetricDefinition Expr) (frame : EventFrame) (w : World)
    (k : string) (idx : Z) :
  allResolved (variablesOf w (Variables metric)) →
  variablesOf w (Variables metric) !! k = Some idx →
  Z.of_nat (length (EventGroups frame)) <= idx →
  (∀ previousTimestamp metadata,
     getExpressionVariables metric frame previousTimestamp metadata w
     = (w, Panics indexOutOfRange)) ∧
  (∀ perfEvents err metricDefinitions functions previousTimestamp metadata,
     getEventFrame perfEvents = (frame, err) →
     metric ∈ metricDefinitions →
     ∃ p, (processEvents perfEvents metricDefinitions functions previousTimestamp
             metadata w).2 = Panics p).
Proof.
  intros Hall Hk Hidx.
  assert (Hnone : groupAt frame idx = None).
  { unfold groupAt. case_decide; [| done]. apply lookup_ge_None. lia. }
  split.
  - intros prev md. by eapply getExpressionVariables_out_of_range.
  - intros perfEvents err defs functions prev md Hframe Hin.
    unfold processEvents. rewrite Hframe.
    destruct (processMetrics_out_of_range frame functions prev md metric k idx
                Hnone defs [] (match err with Some e => Some (ErrEventGroups e)
                                            | None => None end) w Hin Hall Hk)
      as [p Hp].
    destruct (processMetrics _ _ _ _ _ _ _ _) as [w' o]. simpl in Hp. subst o.
    by exists p.
Qed.

(** "instr" is assigned group 0; the frame that a failed acquisition
    returns has no groups, and the call panics. *)
Lemma smaller_frame_panics_sample :
  ((∀ previousTimestamp metadata,
      getExpressionVariables Sample.instr Sample.noFrame previousTimestamp
        metadata Sample.resolved
      = (Sample.resolved, Panics indexOutOfRange)) ∧
   (∀ perfEvents err metricDefinitions functions previousTimestamp metadata,
      getEventFrame perfEvents = (Sample.noFrame, err) →
      Sample.instr ∈ metricDefinitions →
      ∃ p, (processEvents perfEvents metricDefinitions functions previousTimestamp
              metadata Sample.resolved).2 = Panics p)) ∧
  (processEvents ["unreadable"] [Sample.one; Sample.instr] getEvaluatorFunctions
     (F64.of_int 1) Sample.uniprocessor Sample.resolved).2
  = Panics indexOutOfRange.
Proof.
  split; [| vm_compute; reflexivity].
  apply (smaller_frame_panics Sample.instr Sample.noFrame Sample.resolved "instr" 0).
  - apply (bool_decide_unpack _). vm_compute. exact I.
  - vm_compute. reflexivity.
  - vm_compute. discriminate.
Defined.

(** ** The bindings of a successful call *)

Lemma advance_dom m m' : advance m m' → dom m' = dom m.
Proof.
  intros [-> | (_ & _ & Hall)]; [done |]. apply set_eq. intros k.
  rewrite !elem_of_dom. specialize (Hall k). destruct (m !! k) as [v |].
  - split; [by eexists |]. intros _. destruct Hall as [-> | [i ->]]; by eexists.
  - rewrite Hall. done.
Qed.

(** X6. When [getExpressionVariables] returns a nil error, the bindings
    have exactly the variable names of the metric, which are the ones it
    had before the call, and each value is a float64. *)
Theorem bindings_cover_the_variables {Expr} (metric : MetricDefinition Expr)
    (frame : EventFrame) (previousTimestamp : float64) (metadata : Metadata)
    (w w' : World) (variables : gmap string Value) :
  getExpressionVariables metric frame previousTimestamp metadata w
    = (w', Returns (variables, None)) →
  dom variables = dom (variablesOf w (Variables metric)) ∧
  dom (variablesOf w' (Variables metric)) = dom (variablesOf w (Variables metric)) ∧
  map_Forall (λ _ v, ∃ t, v = VFloat t) variables.
Proof.
  intros H.
  pose proof (getExpressionVariables_bindings _ _ _ _ _ _ _ H) as Hb.
  pose proof (getExpressionVariables_advances _ _ _ _ _ _ _ H) as [Ha _].
  pose proof (advance_dom _ _ (Ha (Variables metric))) as Hdom.
  split; [| split; [done |]].
  - rewrite <- Hdom. apply set_eq. intros k. rewrite !elem_of_dom.
    specialize (Hb k). destruct (variablesOf w' (Variables metric) !! k) as [idx |].
    + destruct Hb as (g & _ & ->). split; by eexists.
    + rewrite Hb. done.
  - intros k v Hk. specialize (Hb k).
    destruct (variablesOf w' (Variables metric) !! k) as [idx |]; [| congruence].
    destruct Hb as (g & _ & Hv). rewrite Hv in Hk. simplify_eq. by eexists.
Qed.

Lemma bindings_cover_the_variables_sample :
  dom ({[ "instr" := VFloat (F64.of_int 2000000000);
          "cycles" := VFloat (F64.of_int 1000000000) ]} : gmap string Value)
  = dom (variablesOf Sample.start (Variables Sample.instr)) ∧
  dom (variablesOf Sample.resolved (Variables Sample.instr))
  = dom (variablesOf Sample.start (Variables Sample.instr)) ∧
  map_Forall (λ _ v, ∃ t, v = VFloat t)
    ({[ "instr" := VFloat (F64.of_int 2000000000);
        "cycles" := VFloat (F64.of_int 1000000000) ]} : gmap string Value).
Proof.
  apply (bindings_cover_the_variables Sample.instr Sample.frame1 (F64.of_int 0)
           Sample.uniprocessor Sample.start Sample.resolved).
  vm_compute. reflexivity.
Defined.

(** X7. On the frame that resolves them, the variables are bound to
    counters that are there: when a metric whose variables are all
    unresolved gets a nil error, each variable is assigned a group of the
    frame that holds a raw value for it, and is bound to that raw value
    divided by the interval (and adjusted). *)
Theorem resolving_frame_has_the_values {Expr} (metric : MetricDefinition Expr)
    (frame : EventFrame) (previousTimestamp : float64) (metadata : Metadata)
    (w w' : World) (variables : gmap string Value) :
  allUnresolved (variablesOf w (Variables metric)) →
  getExpressionVariables metric frame previousTimestamp metadata w
    = (w', Returns (variables, None)) →
  ∀ k, k ∈ dom (variablesOf w (Variables metric)) →
    ∃ i g raw,
      variablesOf w' (Variables metric) !! k = Some (Z.of_nat i) ∧
      EventGroups frame !! i = Some g ∧
      EventValues g !! k = Some raw ∧
      variables !! k
      = Some (VFloat (adjusted metadata k
                        (F64.div raw (F64.sub (Timestamp frame) previousTimestamp)))).
Proof.
  intros Hall H k Hk.
  pose proof (getExpressionVariables_bindings _ _ _ _ _ _ _ H k) as Hb.
  apply elem_of_dom in Hk as [v Hv]. pose proof (Hall k v Hv) as ->.
  destruct (getExpressionVariables_cases metric frame previousTimestamp metadata w)
    as [([k0 Hk0] & _) | [(_ & Hnu & _) | (_ & _ & m' & err & HG & Heq)]].
  - by specialize (Hall k0 _ Hk0).
  - destruct Hnu. by exists k.
  - rewrite Heq in H. destruct err as [e |]; [done |]. injection H as <- H.
    rewrite variablesOf_setVariables, decide_True in Hb |- * by done.
    destruct (Greedy_lookup _ _ _ _ _ HG) as (_ & _ & Hok & _).
    destruct (Hok eq_refl k) as (i & g & Hi & Hg & Hin); [by apply elem_of_dom |].
    simpl in Hi. rewrite Hi in Hb. destruct Hb as (g' & Hg' & Hval).
    unfold groupAt in Hg'. rewrite decide_True, Nat2Z.id, Hg in Hg' by lia.
    injection Hg' as <-. unfold groupEventNames in Hin.
    apply elem_of_dom in Hin as [raw Hraw].
    exists i, g, raw. split; [done | split; [done | split; [done |]]].
    rewrite Hval. unfold normalized, rate, eventValue. by rewrite Hraw.
Qed.

Lemma resolving_frame_has_the_values_sample :
  ∃ i g raw,
    variablesOf Sample.resolved (Variables Sample.instr) !! "instr"
    = Some (Z.of_nat i) ∧
    EventGroups Sample.frame1 !! i = Some g ∧
    EventValues g !! "instr" = Some raw ∧
    ({[ "instr" := VFloat (F64.of_int 2000000000);
        "cycles" := VFloat (F64.of_int 1000000000) ]} : gmap string Value) !! "instr"
    = Some (VFloat (adjusted Sample.uniprocessor "instr"
                      (F64.div raw (F64.sub (Timestamp Sample.frame1)
                                      (F64.of_int 0))))).
Proof.
  apply (resolving_frame_has_the_values Sample.instr Sample.frame1 (F64.of_int 0)
           Sample.uniprocessor Sample.start Sample.resolved).
  - apply (bool_decide_unpack _). vm_compute. exact I.
  - vm_compute. reflexivity.
  - apply (bool_decide_unpack _). vm_compute. exact I.
Defined.

(** X8. The order in which Go enumerates the variables of a metric does
    not matter: for any enumeration of the entries of the variable map,
    the first loop of [getExpressionVariables] decides alike whether the
    groups are to be loaded or a variable had failed, and the second loop
    gives the same bindings and error, or panics alike. *)
Theorem enumeration_order_is_immaterial (m : gmap string Z) (entries : list (string * Z))
    (frame : EventFrame) (previousTimestamp : float64) (metadata : Metadata) :
  entries ≡ₚ map_to_list m →
  match checkVariables entries false, checkVariables (map_to_list m) false with
  | inl b, inl b' => b = b'
  | inr (ErrPreviouslyFailed k), inr _ => m !! k = Some Failed
  | _, _ => False
  end ∧
  setVariableValues entries frame previousTimestamp metadata ∅ None
  = setVariableValues (map_to_list m) frame previousTimestamp metadata ∅ None.
Proof.
  intros Hp. split.
  - pose proof (checkVariables_order _ _ false Hp) as Ho.
    destruct (checkVariables entries false) as [b | e] eqn:H,
      (checkVariables (map_to_list m) false) as [b' | e']; try done.
    apply checkVariables_failed in H as (k & Hk & ->).
    rewrite Hp in Hk. by apply elem_of_map_to_list in Hk.
  - symmetry. apply setVariableValues_order; [apply NoDup_fst_map_to_list | done].
Qed.

Lemma enumeration_order_is_immaterial_sample :
  match checkVariables [("instr", 0); ("cycles", 0)] false,
        checkVariables
          (map_to_list (variablesOf Sample.resolved (Variables Sample.instr))) false
  with
  | inl b, inl b' => b = b'
  | inr (ErrPreviouslyFailed k), inr _ =>
      variablesOf Sample.resolved (Variables Sample.instr) !! k = Some Failed
  | _, _ => False
  end ∧
  setVariableValues [("instr", 0); ("cycles", 0)] Sample.frame2 (F64.of_int 1)
    Sample.uniprocessor ∅ None
  = setVariableValues
      (map_to_list (variablesOf Sample.resolved (Variables Sample.instr)))
      Sample.frame2 (F64.of_int 1) Sample.uniprocessor ∅ None.
Proof.
  apply (enumeration_order_is_immaterial
           (variablesOf Sample.resolved (Variables Sample.instr))
           [("instr", 0); ("cycles", 0)]).
  replace (map_to_list (variablesOf Sample.resolved (Variables Sample.instr)))
    with [("cycles", 0); ("instr", 0)] by (vm_compute; reflexivity).
  apply Permutation_swap.
Defined.

(** ** The functions on other arguments *)

(** X9. The function table has the two names "max" and "min". Called
    with fewer than two arguments either function panics with an index
    out of range; arguments after the second are ignored; an argument that
    is neither an integer nor a float64 counts as 0; with two arguments
    the result is a float64 and the error is nil. *)
Theorem function_arguments (name : string) (f : ExpressionFunction) :
  getEvaluatorFunctions !! name = Some f →
  (name = "max" ∨ name = "min") ∧
  f [] = Panics indexOutOfRange ∧
  (∀ a, f [a] = Panics indexOutOfRange) ∧
  (∀ a b rest, f (a :: b :: rest) = f [a; b]) ∧
  (∀ a b, ∃ t, f [a; b] = Returns (VFloat t, None)) ∧
  (∀ a b, ¬ (∃ t, a = VInt t) → ¬ (∃ t, a = VFloat t) →
          f [a; b] = f [VFloat F64.zero; b] ∧ f [b; a] = f [b; VFloat F64.zero]).
Proof.
  unfold getEvaluatorFunctions. intros H.
  assert (Hf : (name = "max" ∨ name = "min") ∧ ∃ op, f = binaryFunction op).
  { destruct (decide (name = "min")) as [-> | Hmin].
    - rewrite lookup_insert_eq in H. simplify_eq. split; [by right | by eexists].
    - rewrite lookup_insert_ne in H by done.
      destruct (decide (name = "max")) as [-> | Hmax].
      + rewrite lookup_insert_eq in H. simplify_eq. split; [by left | by eexists].
      + by rewrite lookup_insert_ne in H. }
  destruct Hf as [Hname [op ->]].
  split; [done | split; [done | split; [done | split; [done | split]]]].
  - intros a b. by eexists.
  - intros a b Hint Hfloat.
    destruct a; try done; [destruct Hint | destruct Hfloat]; by eexists.
Qed.

Lemma function_arguments_sample :
  ("max" = "max" ∨ "max" = "min") ∧
  binaryFunction F64.max [] = Panics indexOutOfRange ∧
  (∀ a, binaryFunction F64.max [a] = Panics indexOutOfRange) ∧
  (∀ a b rest, binaryFunction F64.max (a :: b :: rest)
               = binaryFunction F64.max [a; b]) ∧
  (∀ a b, ∃ t, binaryFunction F64.max [a; b] = Returns (VFloat t, None)) ∧
  (∀ a b, ¬ (∃ t, a = VInt t) → ¬ (∃ t, a = VFloat t) →
          binaryFunction F64.max [a; b] = binaryFunction F64.max [VFloat F64.zero; b] ∧
          binaryFunction F64.max [b; a] = binaryFunction F64.max [b; VFloat F64.zero]).
Proof.
  apply (function_arguments "max" (binaryFunction F64.max)). reflexivity.
Defined.

Section More.
Context {Expr : Type} `{!Collaborators Expr}.

(** ** The expressions a call compiles *)

Lemma uncompiled_cons (d : MetricDefinition Expr) rest :
  uncompiled (d :: rest)
  = match EvaluatorExpression d with
    | None => Expression d :: uncompiled rest
    | Some _ => uncompiled rest
    end.
Proof.
  unfold uncompiled. rewrite filter_cons.
  destruct (EvaluatorExpression d) eqn:H.
  - by rewrite decide_False.
  - by rewrite decide_True.
Qed.

Lemma uncompiled_skip (d : MetricDefinition Expr) rest added :
  added `sublist_of` uncompiled rest → added `sublist_of` uncompiled (d :: rest).
Proof.
  intros H. rewrite uncompiled_cons. destruct (EvaluatorExpression d); [done |].
  by constructor.
Qed.

Lemma processMetrics_compiled frame functions previousTimestamp metadata :
  ∀ (metricDefinitions : list (MetricDefinition Expr)) metrics err w,
  ∃ added,
    Compiled (processMetrics metricDefinitions frame functions previousTimestamp
                metadata metrics err w).1 = (rev added ++ Compiled w)%list ∧
    added `sublist_of` uncompiled metricDefinitions.
Proof.
  induction metricDefinitions as [| d rest IH]; intros metrics err w.
  - exists []. split; [done | constructor].
  - rewrite processMetrics_cons.
    destruct (getExpressionVariables d frame previousTimestamp metadata w)
      as [w1 o1] eqn:H1.
    apply getExpressionVariables_advances in H1 as [_ H1].
    assert (Hstop : ∃ added, Compiled w1 = (rev added ++ Compiled w)%list ∧
                             added `sublist_of` uncompiled (d :: rest)).
    { exists []. split; [done | apply sublist_nil_l]. }
    destruct o1 as [[variables [e |]] | p]; [| | exact Hstop].
    { destruct (IH metrics None w1) as (added & Hc & Hs). exists added.
      rewrite Hc, H1. split; [done | by apply uncompiled_skip]. }
    rewrite evaluateExpression_body.
    set (w2 := match EvaluatorExpression d with
               | None => logCompile w1 (Expression d) | Some _ => w1 end).
    assert (Hgo : ∀ acc, ∃ added,
              Compiled (processMetrics rest frame functions previousTimestamp
                          metadata acc None w2).1 = (rev added ++ Compiled w)%list ∧
              added `sublist_of` uncompiled (d :: rest)).
    { intros acc. destruct (IH acc None w2) as (added & Hc & Hs).
      rewrite uncompiled_cons. subst w2. destruct (EvaluatorExpression d).
      - exists added. by rewrite Hc, H1.
      - exists (Expression d :: added). rewrite Hc. simpl. rewrite H1, <- app_assoc.
        split; [done | by constructor]. }
    assert (Hstop2 : ∃ added, Compiled w2 = (rev added ++ Compiled w)%list ∧
                              added `sublist_of` uncompiled (d :: rest)).
    { rewrite uncompiled_cons. subst w2. destruct (EvaluatorExpression d).
      - exists []. split; [by rewrite H1 | apply sublist_nil_l].
      - exists [Expression d]. simpl. rewrite H1.
        split; [done | constructor; apply sublist_nil_l]. }
    destruct (recoverError _) as [[result [e |]] | p];
      [apply Hgo | | exact Hstop2].
    destruct result; first [apply Hgo | exact Hstop2].
Qed.

Lemma processEvents_world perfEvents (metricDefinitions : list (MetricDefinition Expr))
    functions previousTimestamp metadata w :
  (processEvents perfEvents metricDefinitions functions previousTimestamp metadata w).1
  = (processMetrics metricDefinitions (getEventFrame perfEvents).1 functions
       previousTimestamp metadata []
       (match (getEventFrame perfEvents).2 with
        | Some e => Some (ErrEventGroups e)
        | None => None
        end) w).1.
Proof.
  unfold processEvents. destruct (getEventFrame perfEvents) as [frame e]. simpl.
  by destruct (processMetrics _ _ _ _ _ _ _ _) as [w' [[? ?] | ?]].
Qed.

Lemma processEvents_returns perfEvents (metricDefinitions : list (MetricDefinition Expr))
    functions previousTimestamp metadata w w' metrics timeStamp err :
  processEvents perfEvents metricDefinitions functions previousTimestamp metadata w
  = (w', Returns (metrics, timeStamp, err)) →
  timeStamp = Timestamp (getEventFrame perfEvents).1 ∧
  processMetrics metricDefinitions (getEventFrame perfEvents).1 functions
    previousTimestamp metadata []
    (match (getEventFrame perfEvents).2 with
     | Some e => Some (ErrEventGroups e)
     | None => None
     end) w = (w', Returns (metrics, err)).
Proof.
  unfold processEvents. destruct (getEventFrame perfEvents) as [frame e]. simpl.
  destruct (processMetrics _ _ _ _ _ _ _ _) as [w1 [[ms e'] | ?]]; [| done].
  by intros [= -> -> -> ->].
Qed.
End More.

(** X10. A call of [processEvents] compiles only expressions of
    definitions whose [EvaluatorExpression] is nil, each at most once and
    in the order of the definitions; when every definition comes with its
    compiled expression, the call compiles nothing. *)
Theorem compilations_of_a_call {Expr} `{!Collaborators Expr}
    (perfEvents : list string) (metricDefinitions : list (MetricDefinition Expr))
    (functions : gmap string ExpressionFunction) (previousTimestamp : float64)
    (metadata : Metadata) (w : World) :
  let w' := (processEvents perfEvents metricDefinitions functions
               previousTimestamp metadata w).1 in
  (∃ added, Compiled w' = (rev added ++ Compiled w)%list ∧
            added `sublist_of` uncompiled metricDefinitions) ∧
  ((∀ d, d ∈ metricDefinitions → is_Some (EvaluatorExpression d)) →
   Compiled w' = Compiled w).
Proof.
  intros w'. subst w'. rewrite processEvents_world.
  destruct (processMetrics_compiled (getEventFrame perfEvents).1 functions
              previousTimestamp metadata metricDefinitions []
              (match (getEventFrame perfEvents).2 with
               | Some e => Some (ErrEventGroups e) | None => None end) w)
    as (added & Hc & Hs).
  split; [by exists added |]. intros Hall.
  assert (Hnil : uncompiled metricDefinitions = []).
  { clear Hc Hs. induction metricDefinitions as [| d rest IH]; [done |].
    rewrite uncompiled_cons. destruct (Hall d) as [e ->]; [left |].
    apply IH. intros d' Hd'. apply Hall. by right. }
  rewrite Hnil in Hs. apply sublist_nil_r in Hs. subst added. by rewrite Hc.
Qed.

(** X11. Two outcomes of the evaluator are not turned into a skipped
    metric: a panic whose value is not an error, and a result without
    error that is not a float64. When the definition has its bindings,
    either makes [processEvents] panic. *)
Theorem evaluator_outcomes_that_abort {Expr} `{!Collaborators Expr}
    (metricDef : MetricDefinition Expr) (variables : gmap string Value)
    (functions : gmap string ExpressionFunction) :
  (∃ v, evaluateBody metricDef variables functions = Panics (PanicOther v)) ∨
  (∃ result, evaluateBody metricDef variables functions = Returns (result, None) ∧
             ∀ t, result ≠ VFloat t) →
  ∀ perfEvents rest previousTimestamp metadata w w1,
    getExpressionVariables metricDef (getEventFrame perfEvents).1
      previousTimestamp metadata w = (w1, Returns (variables, None)) →
    (processEvents perfEvents (metricDef :: rest) functions previousTimestamp
       metadata w).2 = Panics interfaceConversion.
Proof.
  intros Hbody perfEvents rest prev md w w1 Hv.
  unfold processEvents. destruct (getEventFrame perfEvents) as [frame e].
  simpl in Hv. rewrite processMetrics_cons, Hv, evaluateExpression_body.
  destruct Hbody as [[v ->] | (result & -> & Hnf)]; [done |].
  simpl. destruct result; try done. by destruct (Hnf t).
Qed.

Lemma evaluator_outcomes_that_abort_sample :
  (processEvents ["sample 1"] [Sample.faulty; Sample.one] Fixture.panicking
     (F64.of_int 0) Sample.uniprocessor Sample.start).2
  = Panics interfaceConversion ∧
  (processEvents ["sample 1"] [Sample.faulty; Sample.one] Fixture.comparing
     (F64.of_int 0) Sample.uniprocessor Sample.start).2
  = Panics interfaceConversion.
Proof.
  split.
  - apply (evaluator_outcomes_that_abort Sample.faulty ∅ Fixture.panicking)
      with (w1 := Sample.start).
    + left. exists (VString "unsupported"). vm_compute. reflexivity.
    + vm_compute. reflexivity.
  - apply (evaluator_outcomes_that_abort Sample.faulty ∅ Fixture.comparing)
      with (w1 := Sample.start).
    + right. exists (VBool true). split; [vm_compute; reflexivity | discriminate].
    + vm_compute. reflexivity.
Defined.

(** X12. The metrics that [processEvents] returns follow the
    definitions: their names are the names of some of the definitions, in
    the order of the definitions and at most one for each; the timestamp
    returned is the one of the frame. *)
Theorem output_follows_the_definitions {Expr} `{!Collaborators Expr}
    (perfEvents : list string) (metricDefinitions : list (MetricDefinition Expr))
    (functions : gmap string ExpressionFunction) (previousTimestamp : float64)
    (metadata : Metadata) (w w' : World) (metrics : list Metric)
    (timeStamp : float64) (err : option error) :
  processEvents perfEvents metricDefinitions functions previousTimestamp metadata w
  = (w', Returns (metrics, timeStamp, err)) →
  Metric_Name <$> metrics `sublist_of` Name <$> metricDefinitions ∧
  (length metrics ≤ length metricDefinitions)%nat ∧
  timeStamp = Timestamp (getEventFrame perfEvents).1.
Proof.
  intros H. apply processEvents_returns in H as [-> H].
  assert (Hsub : ∀ (defs : list (MetricDefinition Expr)) acc e0 w0 w1 ms e1,
    processMetrics defs (getEventFrame perfEvents).1 functions previousTimestamp
      metadata acc e0 w0 = (w1, Returns (ms, e1)) →
    ∃ names, Metric_Name <$> ms = ((Metric_Name <$> acc) ++ names)%list ∧
             names `sublist_of` Name <$> defs).
  { induction defs as [| d rest IH]; intros acc e0 w0 w1 ms e1 Hrun.
    - simpl in Hrun. simplify_eq. exists []. by rewrite app_nil_r.
    - rewrite processMetrics_cons in Hrun.
      assert (Hskip : ∀ w2 e2,
        processMetrics rest (getEventFrame perfEvents).1 functions
          previousTimestamp metadata acc e2 w2 = (w1, Returns (ms, e1)) →
        ∃ names, Metric_Name <$> ms = ((Metric_Name <$> acc) ++ names)%list ∧
                 names `sublist_of` Name <$> d :: rest).
      { intros w2 e2 Hr. destruct (IH _ _ _ _ _ _ Hr) as (names & Hn & Hs).
        exists names. split; [done | by constructor]. }
      destruct (getExpressionVariables d _ _ _ w0)
        as [w2 [[variables [e |]] | p]]; [eauto | | done].
      destruct (evaluateExpression d variables functions w2)
        as [w3 [[result [e |]] | p]]; [eauto | | done].
      destruct result; try done.
      destruct (IH _ _ _ _ _ _ Hrun) as (names & Hn & Hs).
      exists (Name d :: names). rewrite Hn, fmap_app, <- app_assoc.
      split; [done | by constructor]. }
  destruct (Hsub _ _ _ _ _ _ _ H) as (names & Hn & Hs). simpl in Hn.
  rewrite Hn. split; [done | split; [| done]].
  apply sublist_length in Hs. rewrite <- Hn in Hs.
  by rewrite !length_fmap in Hs.
Qed.

Lemma output_follows_the_definitions_sample :
  Metric_Name <$> [{| Metric_Name := "instr";
                      Metric_Value := F64.of_int 2000000000 |}]
  `sublist_of` Name <$> Sample.definitions ∧
  (length [{| Metric_Name := "instr"; Metric_Value := F64.of_int 2000000000 |}]
   ≤ length Sample.definitions)%nat ∧
  F64.of_int 1 = Timestamp (getEventFrame ["sample 1"]).1.
Proof.
  apply (output_follows_the_definitions ["sample 1"] Sample.definitions
           getEvaluatorFunctions (F64.of_int 0) Sample.uniprocessor Sample.start
           Sample.afterFirst _ _ None).
  vm_compute. reflexivity.
Defined.

(** ** What a call leaves alone *)

Section Frame.
Context {Expr : Type} `{!Collaborators Expr}.

Lemma processMetrics_other frame functions previousTimestamp metadata l :
  ∀ (metricDefinitions : list (MetricDefinition Expr)) metrics err w,
  (∀ d, d ∈ metricDefinitions → Variables d ≠ l) →
  Maps (processMetrics metricDefinitions frame functions previousTimestamp
          metadata metrics err w).1 !! l = Maps w !! l.
Proof.
  induction metricDefinitions as [| d rest IH]; intros metrics err w Hl; [done |].
  rewrite processMetrics_cons.
  assert (Hd : l ≠ Variables d) by (intros ->; apply (Hl d); [by left | done]).
  assert (Hrest : ∀ d', d' ∈ rest → Variables d' ≠ l)
    by (intros d' Hd'; apply Hl; right; exact Hd').
  pose proof (getExpressionVariables_other d frame previousTimestamp metadata w l Hd)
    as H1.
  destruct (getExpressionVariables d frame previousTimestamp metadata w)
    as [w1 o1]. simpl in H1.
  destruct o1 as [[variables [e |]] | p]; [by rewrite IH | | done].
  pose proof (evaluateExpression_maps d variables functions w1) as H2.
  destruct (evaluateExpression d variables functions w1) as [w2 o2]. simpl in H2.
  assert (H12 : Maps w2 !! l = Maps w !! l) by by rewrite H2.
  destruct o2 as [[result [e |]] | p]; [by rewrite IH | | done].
  destruct result; try done. by rewrite IH.
Qed.
End Frame.

(** X13. A call of [processEvents] adds no variable to a definition and
    removes none, and it leaves every variable map alone that no
    definition of the call refers to. *)
Theorem call_keeps_the_variables {Expr} `{!Collaborators Expr}
    (perfEvents : list string) (metricDefinitions : list (MetricDefinition Expr))
    (functions : gmap string ExpressionFunction) (previousTimestamp : float64)
    (metadata : Metadata) (w : World) :
  let w' := (processEvents perfEvents metricDefinitions functions
               previousTimestamp metadata w).1 in
  (∀ l, dom (variablesOf w' l) = dom (variablesOf w l)) ∧
  (∀ l, (∀ d, d ∈ metricDefinitions → Variables d ≠ l) →
        Maps w' !! l = Maps w !! l).
Proof.
  intros w'. split.
  - intros l. apply advance_dom. subst w'. apply processEvents_advances.
  - intros l Hl. subst w'. rewrite processEvents_world.
    by apply processMetrics_other.
Qed.

(** ** A frame without groups *)

Lemma no_groups_fail_all {Expr} (metric : MetricDefinition Expr) frame
    previousTimestamp metadata w :
  EventGroups frame = [] →
  hasUnresolved (variablesOf w (Variables metric)) →
  ¬ hasFailed (variablesOf w (Variables metric)) →
  ∃ e, getExpressionVariables metric frame previousTimestamp metadata w
       = (setVariables w (Variables metric)
            ((λ _, Failed) <$> variablesOf w (Variables metric)),
          Returns (∅, Some e)).
Proof.
  intros Hnil Hu Hnf. set (m := variablesOf w (Variables metric)) in *.
  destruct (getExpressionVariables_cases metric frame previousTimestamp metadata w)
    as [(Hf & _) | [(_ & Hnu & _) | (_ & _ & m' & err & HG & Heq)]]; [done | done |].
  fold m in HG. assert (Hdom : dom m ≠ ∅).
  { destruct Hu as [k Hk]. intros He. apply (not_elem_of_empty (C := gset string) k).
    rewrite <- He. by apply elem_of_dom. }
  assert (Hno : noMatch (dom m) (EventGroups frame)).
  { rewrite Hnil. by intros j g Hj. }
  pose proof (Greedy_deterministic _ _ _ _ _ _ HG
                (Greedy_failed (Name metric) (EventGroups frame) (dom m) m Hdom Hno))
    as Hr.
  simplify_eq. rewrite Heq. eexists. f_equal. f_equal. apply map_eq. intros k.
  rewrite union_assigned_lookup, lookup_fmap. case_decide as Hk.
  - apply elem_of_dom in Hk as [x ->]. done.
  - apply not_elem_of_dom in Hk. by rewrite Hk.
Qed.

Lemma failed_map_hasFailed (m : gmap string Z) :
  hasUnresolved m → hasFailed ((λ _, Failed) <$> m).
Proof. intros [k Hk]. exists k. by rewrite lookup_fmap, Hk. Qed.

Section NoGroups.
Context {Expr : Type} `{!Collaborators Expr}.

Lemma processMetrics_no_groups frame functions previousTimestamp metadata
    (d : MetricDefinition Expr) (m : gmap string Z) :
  EventGroups frame = [] → hasUnresolved m → ¬ hasFailed m →
  ∀ metricDefinitions metrics err w w' r,
  d ∈ metricDefinitions →
  variablesOf w (Variables d) = m →
  processMetrics metricDefinitions frame functions previousTimestamp metadata
    metrics err w = (w', Returns r) →
  variablesOf w' (Variables d) = (λ _, Failed) <$> m.
Proof.
  intros Hnil Hu Hnf.
  assert (Hkeep : ∀ defs metrics err w,
    variablesOf w (Variables d) = (λ _, Failed) <$> m →
    variablesOf (processMetrics defs frame functions previousTimestamp metadata
                   metrics err w).1 (Variables d) = (λ _, Failed) <$> m).
  { intros defs metrics err w Hm.
    pose proof (processMetrics_advances frame functions previousTimestamp metadata
                  defs metrics err w (Variables d)) as Ha.
    rewrite (advance_failed _ _ Ha); [done |].
    rewrite Hm. by apply failed_map_hasFailed. }
  induction metricDefinitions as [| d0 rest IH]; intros metrics err w w' r Hd Hm Hrun;
    [by apply elem_of_nil in Hd |].
  rewrite processMetrics_cons in Hrun.
  assert (Hstep : ∀ metrics' err' w1,
    advances w w1 →
    (d0 = d → variablesOf w1 (Variables d) = (λ _, Failed) <$> m) →
    (variablesOf w1 (Variables d) = m ∨
     variablesOf w1 (Variables d) = (λ _, Failed) <$> m) →
    processMetrics rest frame functions previousTimestamp metadata metrics' err' w1
      = (w', Returns r) →
    variablesOf w' (Variables d) = (λ _, Failed) <$> m).
  { intros metrics' err' w1 Ha Hhead Hor Hr.
    assert (Hfin : variablesOf w1 (Variables d) = (λ _, Failed) <$> m →
                   variablesOf w' (Variables d) = (λ _, Failed) <$> m).
    { intros Hf. pose proof (Hkeep rest metrics' err' w1 Hf) as Hk.
      by rewrite Hr in Hk. }
    apply elem_of_cons in Hd as [-> | Hd]; [by apply Hfin, Hhead |].
    destruct Hor as [Hsame | Hf]; [by eapply IH | by apply Hfin]. }
  destruct (decide (Variables d0 = Variables d)) as [Hl | Hl].
  - (* [d0] works on the map of [d] *)
    destruct (no_groups_fail_all d0 frame previousTimestamp metadata w Hnil)
      as [e Heq]; [by rewrite Hl, Hm | by rewrite Hl, Hm |].
    rewrite Heq in Hrun. rewrite Hl, Hm in Hrun.
    pose proof (Hkeep rest metrics None
                  (setVariables w (Variables d) ((λ _, Failed) <$> m))) as Hk.
    rewrite Hrun in Hk. apply Hk.
    by rewrite variablesOf_setVariables, decide_True.
  - assert (Hne : d0 = d → False) by (intros ->; done).
    assert (Hsame : ∀ w1, Maps w1 !! Variables d = Maps w !! Variables d →
              variablesOf w1 (Variables d) = m).
    { intros w1 Hw1. unfold variablesOf in *. by rewrite Hw1. }
    pose proof (getExpressionVariables_other d0 frame previousTimestamp metadata w
                  (Variables d) (not_eq_sym Hl)) as H1.
    destruct (getExpressionVariables d0 frame previousTimestamp metadata w)
      as [w1 o1] eqn:Hg. simpl in H1.
    apply getExpressionVariables_advances in Hg as [Ha1 _].
    destruct o1 as [[variables [e |]] | p]; [| | done].
    { eapply Hstep; [exact Ha1 | done | left; by apply Hsame | exact Hrun]. }
    pose proof (evaluateExpression_maps d0 variables functions w1) as H2.
    pose proof (evaluateExpression_advances d0 variables functions w1) as Ha2.
    destruct (evaluateExpression d0 variables functions w1) as [w2 o2].
    simpl in H2, Ha2.
    assert (H12 : Maps w2 !! Variables d = Maps w !! Variables d) by by rewrite H2.
    pose proof (advances_trans _ _ _ Ha1 Ha2) as Ha.
    destruct o2 as [[result [e |]] | p]; [| | done].
    { eapply Hstep; [exact Ha | done | left; by apply Hsame | exact Hrun]. }
    destruct result; try done.
    eapply Hstep; [exact Ha | done | left; by apply Hsame | exact Hrun].
Qed.
End NoGroups.

(** X14. On a frame without groups, as a failed acquisition returns it, a
    call of [processEvents] that returns has marked failed every variable
    of every definition that had an unresolved variable and no failed
    one: these metrics are out of every later output. *)
Theorem frame_without_groups_fails_the_unresolved {Expr} `{!Collaborators Expr}
    (perfEvents : list string) (metricDefinitions : list (MetricDefinition Expr))
    (functions : gmap string ExpressionFunction) (previousTimestamp : float64)
    (metadata : Metadata) (w w' : World) (d : MetricDefinition Expr)
    (r : list Metric * float64 * option error) :
  EventGroups (getEventFrame perfEvents).1 = [] →
  d ∈ metricDefinitions →
  hasUnresolved (variablesOf w (Variables d)) →
  ¬ hasFailed (variablesOf w (Variables d)) →
  processEvents perfEvents metricDefinitions functions previousTimestamp metadata w
  = (w', Returns r) →
  variablesOf w' (Variables d) = (λ _, Failed) <$> variablesOf w (Variables d) ∧
  ∀ w'', later metricDefinitions w' w'' →
         variablesOf w'' (Variables d) = variablesOf w' (Variables d).
Proof.
  intros Hnil Hd Hu Hnf H. destruct r as [[metrics ts] err].
  apply processEvents_returns in H as [_ H].
  pose proof (processMetrics_no_groups _ functions previousTimestamp metadata d
                (variablesOf w (Variables d)) Hnil Hu Hnf _ _ _ _ _ _ Hd eq_refl H)
    as Hm.
  split; [done |]. intros w'' Hl.
  apply (advance_failed _ _ (later_advances _ _ _ Hl (Variables d))).
  rewrite Hm. by apply failed_map_hasFailed.
Qed.

Lemma frame_without_groups_fails_the_unresolved_sample :
  variablesOf
    (processEvents ["unreadable"] [Sample.one; Sample.instr] getEvaluatorFunctions
       (F64.of_int 0) Sample.uniprocessor Sample.start).1 (Variables Sample.instr)
  = (λ _, Failed) <$> variablesOf Sample.start (Variables Sample.instr) ∧
  ∀ w'', later [Sample.one; Sample.instr]
           (processEvents ["unreadable"] [Sample.one; Sample.instr]
              getEvaluatorFunctions (F64.of_int 0) Sample.uniprocessor
              Sample.start).1 w'' →
         variablesOf w'' (Variables Sample.instr)
         = variablesOf
             (processEvents ["unreadable"] [Sample.one; Sample.instr]
                getEvaluatorFunctions (F64.of_int 0) Sample.uniprocessor
                Sample.start).1 (Variables Sample.instr).
Proof.
  apply (frame_without_groups_fails_the_unresolved ["unreadable"]
           [Sample.one; Sample.instr] getEvaluatorFunctions (F64.of_int 0)
           Sample.uniprocessor Sample.start _ Sample.instr
           ([{| Metric_Name := "one"; Metric_Value := F64.of_int 1 |}],
            F64.zero, None)).
  - reflexivity.
  - right. left.
  - exists "instr". vm_compute. reflexivity.
  - intros [k Hk].
    assert (Hall : allUnresolved (variablesOf Sample.start (Variables Sample.instr)))
      by (apply (bool_decide_unpack _); vm_compute; exact I).
    apply Hall in Hk. discriminate Hk.
  - vm_compute. reflexivity.
Defined.

(** * Properties of the orchestrator *)

Section Reporting.
Import Orchestrator.

Lemma Split_nonempty s sep : Split s sep ≠ [].
Proof.
  destruct s as [| c rest]; [done |]. simpl.
  case_decide; [done |]. by destruct (Split rest sep).
Qed.

Lemma Join_Split s sep : Join (Split s sep) (String sep "") = s.
Proof.
  unfold Join. induction s as [| c rest IH]; [done |]. simpl.
  pose proof (Split_nonempty rest sep) as Hne.
  case_decide as Hc.
  - subst c. simpl. destruct (Split rest sep) as [| p ps] eqn:Hs; [done |].
    by rewrite IH.
  - destruct (Split rest sep) as [| p ps] eqn:Hs; [done |].
    simpl in *. destruct ps; simpl in *; by rewrite <- IH.
Qed.

Lemma Split_pieces s sep : Forall (λ piece, contains piece sep = false) (Split s sep).
Proof.
  induction s as [| c rest IH]; [by repeat constructor |]. simpl.
  case_decide as Hc; [by constructor |].
  destruct (Split rest sep) as [| p ps]; [repeat constructor |].
  - simpl. by rewrite bool_decide_eq_false_2.
  - inversion IH; subst. constructor; [| done].
    simpl. by rewrite bool_decide_eq_false_2.
Qed.

Lemma Split_piece piece sep :
  contains piece sep = false → Split piece sep = [piece].
Proof.
  induction piece as [| c piece IH]; [done |]. simpl. intros H.
  apply orb_false_iff in H as [Hc H]. apply bool_decide_eq_false in Hc.
  by rewrite decide_False, IH.
Qed.

Lemma Split_app piece tail sep :
  contains piece sep = false →
  Split (piece ++ String sep tail) sep = piece :: Split tail sep.
Proof.
  induction piece as [| c piece IH]; simpl; intros H.
  - by rewrite decide_True.
  - apply orb_false_iff in H as [Hc H]. apply bool_decide_eq_false in Hc.
    by rewrite decide_False, IH.
Qed.

Lemma Split_Join pieces sep :
  pieces ≠ [] → Forall (λ piece, contains piece sep = false) pieces →
  Split (Join pieces (String sep "")) sep = pieces.
Proof.
  unfold Join. intros Hne Hall. induction Hall as [| p ps Hp Hps IH]; [done |].
  clear Hne. destruct ps as [| q qs]; [by apply Split_piece |].
  change (String.concat (String sep "") (p :: q :: qs))
    with (p ++ String sep (String.concat (String sep "") (q :: qs))).
  rewrite Split_app by done. f_equal. by apply IH.
Qed.

Lemma lastStatus_app events1 events2 name :
  lastStatus (events1 ++ events2)%list name
  = match lastStatus events2 name with
    | Some status => Some status
    | None => lastStatus events1 name
    end.
Proof.
  induction events1 as [| e events1 IH]; simpl.
  - by destruct (lastStatus events2 name).
  - rewrite IH. by destruct (lastStatus events2 name).
Qed.

Lemma lastStatus_updates (P : Collection → bool) status collections name :
  lastStatus
    (collections ≫= (λ c, if P c then update true (targetName c) status else []))
    name
  = if bool_decide (Exists (λ c, P c = true ∧ targetName c = name) collections)
    then Some status else None.
Proof.
  induction collections as [| c collections IH]; [done |].
  rewrite bind_cons, lastStatus_app, IH. clear IH.
  destruct (bool_decide_reflect
              (Exists (λ c, P c = true ∧ targetName c = name) collections))
    as [Hex | Hex].
  - rewrite bool_decide_eq_true_2; [done | by right].
  - destruct (P c) eqn:HP; simpl.
    + case_decide as Hn.
      * rewrite bool_decide_eq_true_2; [done | by left].
      * rewrite bool_decide_eq_false_2; [done |].
        intros Hc. apply Exists_cons in Hc as [[_ Hc] | Hc]; done.
    + rewrite bool_decide_eq_false_2; [done |].
      intros Hc. apply Exists_cons in Hc as [[Hc _] | Hc]; [congruence | done].
Qed.

Lemma lastStatus_creating collections name :
  lastStatus (creating true (filter (λ c, ok c = true) collections)) name
  = if bool_decide (Exists (λ c, ok c = true ∧ targetName c = name) collections)
    then Some "creating report(s)" else None.
Proof.
  rewrite <- (lastStatus_updates ok). unfold creating.
  induction collections as [| c collections IH]; [done |].
  rewrite filter_cons, (bind_cons _ c collections).
  destruct (ok c) eqn:Hok.
  - rewrite decide_True, bind_cons, !lastStatus_app, IH by done. done.
  - rewrite decide_False by done. rewrite lastStatus_app, IH. simpl.
    match goal with |- ?x = _ => by destruct x end.
Qed.

Lemma lastStatus_errorCreating collections name :
  lastStatus (errorCreating true collections) name
  = if bool_decide (Exists (λ c, targetName c = name) collections)
    then Some "error creating report(s)" else None.
Proof.
  pose proof (lastStatus_updates (λ _, true) "error creating report(s)"
                collections name) as H.
  unfold errorCreating. rewrite H.
  rewrite (bool_decide_ext _ (Exists (λ c, targetName c = name) collections));
    [done |]. split.
  - intros Hex. eapply Exists_impl; [exact Hex |]. by intros c [_ ?].
  - intros Hex. eapply Exists_impl; [exact Hex |]. by intros c ?.
Qed.

Lemma lastStatus_finishedCreating collections name :
  lastStatus (finishedCreating true collections) name
  = if bool_decide (Exists (λ c, ok c = true ∧ targetName c = name) collections)
    then Some "finished creating report(s)" else None.
Proof. apply (lastStatus_updates ok). Qed.

Lemma lastStatus_runEvents args name : lastStatus (runEvents args) name = None.
Proof. done. Qed.

Lemma filter_ok_nil collections :
  filter (λ c, ok c = true) collections = [] ↔ Forall (λ c, ok c = false) collections.
Proof.
  induction collections as [| c collections IH]; [by split; constructor |].
  rewrite filter_cons. destruct (ok c) eqn:Hok.
  - rewrite decide_True by done. split; [done |].
    intros Hall. inversion Hall; congruence.
  - rewrite decide_False by done. rewrite IH. split.
    + by constructor.
    + intros Hall. by inversion Hall.
Qed.

Lemma filter_ok_Exists collections :
  filter (λ c, ok c = true) collections ≠ [] ↔ Exists (λ c, ok c = true) collections.
Proof.
  induction collections as [| c collections IH].
  - split; [done | by intros H%Exists_nil].
  - rewrite filter_cons, Exists_cons. destruct (ok c) eqn:Hok.
    + rewrite decide_True by done. split; [by left | done].
    + rewrite decide_False by done. rewrite IH. split; [by right |].
      by intros [? | ?].
Qed.

Lemma take_all_but_last {A} (l : list A) :
  l ≠ [] → ∃ x, l = (take (length l - 1) l ++ [x])%list.
Proof.
  destruct l as [| y l] using rev_ind; [done |]. intros _. exists y.
  rewrite length_app. simpl.
  replace (length l + 1 - 1)%nat with (length l) by lia.
  by rewrite take_app_length.
Qed.

Lemma contains_Join pieces sep :
  contains (Join pieces (String sep "")) sep = false ↔
  Forall (λ piece, contains piece sep = false) pieces ∧ (length pieces ≤ 1)%nat.
Proof.
  assert (Happ : ∀ p q, contains (p ++ q) sep = contains p sep || contains q sep).
  { intros p q. induction p as [| c p IH]; [done |]. simpl.
    by rewrite IH, orb_assoc. }
  unfold Join. destruct pieces as [| p [| q qs]]; simpl.
  - split; [by split; [constructor | lia] | done].
  - split; [intros Hp; split; [by repeat constructor | lia] |].
    intros [Hall _]. by inversion Hall.
  - rewrite Happ. simpl. rewrite bool_decide_eq_true_2 by done.
    rewrite orb_true_r. split; [done | intros [_ Hlen]; lia].
Qed.

Lemma RunCommand_updates (f : Collection → list Event) collections args :
  (∀ c, Forall (λ e, ∃ name status, e = StatusUpdate name status) (f c)) →
  RunCommand args ∉ collections ≫= f.
Proof.
  intros Hf Hin. apply list_elem_of_bind in Hin as (c & Hin & _).
  specialize (Hf c). rewrite Forall_forall in Hf.
  by destruct (Hf _ Hin) as (name & status & ?).
Qed.

Lemma update_is_status statusUpdate name status :
  Forall (λ e, ∃ name status, e = StatusUpdate name status)
    (update statusUpdate name status).
Proof. destruct statusUpdate; repeat constructor. by eexists _, _. Qed.

Lemma RunCommand_runEvents before after a args :
  (∀ args, RunCommand args ∉ before) → (∀ args, RunCommand args ∉ after) →
  RunCommand args ∈ ((before ++ runEvents a) ++ after)%list ↔ args = a.
Proof.
  intros Hb Ha. rewrite !elem_of_app. unfold runEvents. split.
  - intros [[H | H] | H]; [by apply Hb in H | | by apply Ha in H].
    apply elem_of_cons in H as [H | H]; [done |].
    apply list_elem_of_singleton in H. by injection H.
  - intros ->. left. right. right. left.
Qed.

(** The courses a call of [getReports] can take. *)
Lemma getReports_cases `{!Host} collections outputDir format statusUpdate :
  let okCollections := filter (λ c, ok c = true) collections in
  let run := getReports collections outputDir format statusUpdate in
  (okCollections = [] ∧ run = ([], Returns ([], Some ErrNoDataCollected))) ∨
  (okCollections ≠ [] ∧ ∃ err,
     os_Executable.2 = Some err ∧
     run = (creating statusUpdate okCollections, Returns ([], Some err))) ∨
  (okCollections ≠ [] ∧ ∃ binPath,
     os_Executable.2 = None ∧ getBinPath = (binPath, None) ∧
     let args := reporterArgs binPath (outputFilePath <$> okCollections)
                   outputDir format in
     (∃ err, (RunLocalCommand args).2 = Some err ∧
        run = (((creating statusUpdate okCollections ++ runEvents args) ++
                errorCreating statusUpdate collections)%list,
               Returns ([], Some err))) ∨
     (∃ reportFilePaths rest,
        RunLocalCommand args
          = (Join (reportFilePaths ++ [rest]) (String newline ""), None) ∧
        Forall (λ piece, contains piece newline = false) (reportFilePaths ++ [rest]) ∧
        run = (((creating statusUpdate okCollections ++ runEvents args) ++
                finishedCreating statusUpdate collections)%list,
               Returns (reportFilePaths, None)))).
Proof.
  intros okCollections run. subst run. unfold getReports. fold okCollections.
  case_decide as Hlen.
  { left. apply nil_length_inv in Hlen. by rewrite Hlen. }
  right. assert (Hne : okCollections ≠ []) by (by intros H0; rewrite H0 in Hlen).
  unfold getBinPath. destruct os_Executable as [exePath [err |]] eqn:Hexe.
  { left. split; [done |]. by exists err. }
  right. split; [done |]. eexists. split; [done |]. split; [done |]. simpl.
  destruct (RunLocalCommand _) as [stdout [err |]] eqn:Hrun.
  { left. by exists err. }
  right. pose proof (Split_nonempty stdout newline) as Hs.
  rewrite decide_False by (by intros H0%nil_length_inv).
  destruct (take_all_but_last _ Hs) as [rest Hrest].
  exists (take (length (Split stdout newline) - 1) (Split stdout newline)), rest.
  rewrite <- Hrest. rewrite Join_Split. split; [done |]. split; [| done].
  apply Split_pieces.
Qed.

(** X15. Without a collection that is ok, [getReports] returns the error
    that no data was collected, updates no status and runs nothing. It
    runs the reporter exactly when a collection is ok and the path of the
    executable is known, and then on the output files of the collections
    that are ok, in their order, joined by commas. *)
Theorem reporter_needs_a_collection `{!Host} (collections : list Collection)
    (outputDir format : string) (statusUpdate : bool) :
  let run := getReports collections outputDir format statusUpdate in
  (Forall (λ c, ok c = false) collections →
   run = ([], Returns ([], Some ErrNoDataCollected))) ∧
  ((∃ args, RunCommand args ∈ run.1) ↔
   Exists (λ c, ok c = true) collections ∧ os_Executable.2 = None) ∧
  (∀ args, RunCommand args ∈ run.1 →
     args !! 2%nat
     = Some (Join (outputFilePath <$> filter (λ c, ok c = true) collections) ",")).
Proof.
  intros run. subst run.
  assert (Hc : ∀ args, RunCommand args ∉
            creating statusUpdate (filter (λ c, ok c = true) collections)).
  { intros args. apply RunCommand_updates. intros c. apply update_is_status. }
  assert (He : ∀ args, RunCommand args ∉ errorCreating statusUpdate collections).
  { intros args. apply RunCommand_updates. intros c. apply update_is_status. }
  assert (Hf : ∀ args, RunCommand args ∉ finishedCreating statusUpdate collections).
  { intros args. apply RunCommand_updates. intros c.
    destruct (ok c); [apply update_is_status | constructor]. }
  destruct (getReports_cases collections outputDir format statusUpdate)
    as [[Hnil ->] | [(Hne & err & Hexe & ->) |
        (Hne & binPath & Hexe & _ & [(err & _ & ->) | (paths & rest & _ & _ & ->)])]];
    simpl.
  - split; [done |]. split; [| by intros args H0%elem_of_nil].
    split; [by intros [args H0%elem_of_nil] |].
    intros [Hex _]. by apply filter_ok_Exists in Hex.
  - split; [by intros Hall%filter_ok_nil |].
    split; [| by intros args H0%Hc].
    split; [by intros [args H0%Hc] |]. rewrite Hexe. by intros [_ ?].
  - split; [by intros Hall%filter_ok_nil |]. split.
    + split; [intros _; split; [by apply filter_ok_Exists | done] |].
      intros _. eexists. by apply RunCommand_runEvents.
    + intros args Hin. apply RunCommand_runEvents in Hin as ->; done.
  - split; [by intros Hall%filter_ok_nil |]. split.
    + split; [intros _; split; [by apply filter_ok_Exists | done] |].
      intros _. eexists. by apply RunCommand_runEvents.
    + intros args Hin. apply RunCommand_runEvents in Hin as ->; done.
Qed.

(** X16. The status [getReports] leaves the targets with. When it returns
    without error, every target of a collection that is ok shows the
    reports as finished, and a target none of whose collections is ok is
    not updated. When the reporter was run and failed, every target shows
    the error, also the ones whose collection was not ok. When the
    reporter could not be run, the targets of the collections that are ok
    are left showing that reports are being created. *)
Theorem status_after_reports `{!Host} (collections : list Collection)
    (outputDir format : string) (events : list Event)
    (reportFilePaths : list string) (err : option failure) :
  getReports collections outputDir format true
  = (events, Returns (reportFilePaths, err)) →
  match err with
  | None =>
      (∀ c, c ∈ collections → ok c = true →
            lastStatus events (targetName c) = Some "finished creating report(s)") ∧
      (∀ name, Forall (λ c, targetName c = name → ok c = false) collections →
               lastStatus events name = None)
  | Some _ =>
      ((∃ args, RunCommand args ∈ events) →
       ∀ c, c ∈ collections →
            lastStatus events (targetName c) = Some "error creating report(s)") ∧
      (¬ (∃ args, RunCommand args ∈ events) →
       ∀ c, c ∈ collections → ok c = true →
            lastStatus events (targetName c) = Some "creating report(s)")
  end.
Proof.
  intros Hrun.
  assert (Hc : ∀ args, RunCommand args ∉
            creating true (filter (λ c, ok c = true) collections)).
  { intros args. apply RunCommand_updates. intros c. apply update_is_status. }
  assert (Hok : ∀ c, c ∈ collections → ok c = true →
            Exists (λ c', ok c' = true ∧ targetName c' = targetName c) collections).
  { intros c Hin Hc'. apply Exists_exists. by exists c. }
  destruct (getReports_cases collections outputDir format true)
    as [[Hnil Heq] | [(Hne & e & Hexe & Heq) |
        (Hne & binPath & Hexe & _ & [(e & _ & Heq) | (paths & rest & _ & _ & Heq)])]];
    simpl in Heq; rewrite Heq in Hrun; simplify_eq.
  - split; [by intros [args H0%elem_of_nil] |]. intros _ c Hin Hc'.
    apply filter_ok_nil in Hnil. rewrite Forall_forall in Hnil.
    specialize (Hnil c Hin). congruence.
  - split; [by intros [args H0%Hc] |]. intros _ c Hin Hc'.
    rewrite lastStatus_creating, bool_decide_eq_true_2; [done | by apply Hok].
  - split.
    + intros _ c Hin. rewrite lastStatus_app, lastStatus_errorCreating.
      rewrite bool_decide_eq_true_2; [done |]. apply Exists_exists. by exists c.
    + intros Hno. destruct Hno. eexists. rewrite <- (assoc_L _). 
      rewrite !elem_of_app. right. left. right. left.
  - split.
    + intros c Hin Hc'. rewrite lastStatus_app, lastStatus_finishedCreating.
      rewrite bool_decide_eq_true_2; [done | by apply Hok].
    + intros name Hall.
      assert (Hno : ¬ Exists (λ c, ok c = true ∧ targetName c = name) collections).
      { intros (c & Hin & Hc1 & Hc2)%Exists_exists. rewrite Forall_forall in Hall.
        specialize (Hall c Hin Hc2). congruence. }
      rewrite !lastStatus_app, lastStatus_finishedCreating, lastStatus_runEvents,
        lastStatus_creating.
      by rewrite !bool_decide_eq_false_2.
Qed.

Lemma status_after_reports_sample :
  ((∀ c, c ∈ [Example.a; Example.b] → ok c = true →
      lastStatus (getReports [Example.a; Example.b] "out" "html" true).1 (targetName c)
      = Some "finished creating report(s)") ∧
   (∀ name, Forall (λ c, targetName c = name → ok c = false) [Example.a; Example.b] →
      lastStatus (getReports [Example.a; Example.b] "out" "html" true).1 name = None)) ∧
  lastStatus (getReports [Example.broken; Example.b] "out" "html" true).1 "b"
  = Some "error creating report(s)".
Proof.
  split.
  - apply (status_after_reports [Example.a; Example.b] "out" "html" _
             ["out/a.html"; "out/a.json"] None).
    vm_compute. reflexivity.
  - vm_compute. reflexivity.
Defined.

(** X17. When [getReports] returns with an error, it returns no path.
    When it returns without one, the paths are the complete lines of what
    the reporter wrote to its standard output: the output is these lines
    and what follows the last newline, each ended by a newline but the
    last. What follows the last newline is dropped, so an output without
    newline gives no path, and no error. *)
Theorem report_paths_are_the_complete_lines `{!Host} (collections : list Collection)
    (outputDir format : string) (statusUpdate : bool) (events : list Event)
    (reportFilePaths : list string) (err : option failure) :
  getReports collections outputDir format statusUpdate
  = (events, Returns (reportFilePaths, err)) →
  match err with
  | Some _ => reportFilePaths = []
  | None =>
      ∃ binPath rest,
        let stdout :=
          (RunLocalCommand
             (reporterArgs binPath
                (outputFilePath <$> filter (λ c, ok c = true) collections)
                outputDir format)).1 in
        getBinPath = (binPath, None) ∧
        stdout = Join (reportFilePaths ++ [rest]) (String newline "") ∧
        Forall (λ piece, contains piece newline = false) (reportFilePaths ++ [rest]) ∧
        (reportFilePaths = [] ↔ contains stdout newline = false)
  end.
Proof.
  intros Hrun.
  destruct (getReports_cases collections outputDir format statusUpdate)
    as [[Hnil Heq] | [(Hne & e & Hexe & Heq) |
        (Hne & binPath & Hexe & Hbin & [(e & _ & Heq) | (paths & rest & Hout & Hall & Heq)])]];
    simpl in Heq; rewrite Heq in Hrun; simplify_eq; try done.
  exists binPath, rest. rewrite Hout. simpl.
  split; [done |]. split; [done |]. split; [done |].
  rewrite contains_Join, length_app. simpl. split.
  - intros ->. split; [done | simpl; lia].
  - intros [_ Hlen]. destruct reportFilePaths; [done | simpl in Hlen; lia].
Qed.

(** The reporter of the sample host writes two lines, each ended by a
    newline: they are the two paths. *)
Lemma report_paths_are_the_complete_lines_sample :
  ∃ binPath rest,
    let stdout :=
      (RunLocalCommand
         (reporterArgs binPath
            (outputFilePath <$> filter (λ c, ok c = true) [Example.a; Example.b])
            "out" "html")).1 in
    getBinPath = (binPath, None) ∧
    stdout = Join (["out/a.html"; "out/a.json"] ++ [rest]) (String newline "") ∧
    Forall (λ piece, contains piece newline = false)
      (["out/a.html"; "out/a.json"] ++ [rest]) ∧
    (["out/a.html"; "out/a.json"] = [] ↔ contains stdout newline = false).
Proof.
  apply (report_paths_are_the_complete_lines [Example.a; Example.b] "out" "html"
           true (getReports [Example.a; Example.b] "out" "html" true).1
           ["out/a.html"; "out/a.json"] None).
  vm_compute. reflexivity.
Defined.

End Reporting.
